(** * Calibration of tumour-growth ODE models (part3_calibration.ipynb)

    A shallow embedding of the code cells of the calibration notebook:
    the two right-hand sides [control_tumor] and [treated_tumor], the
    synthetic-data cells, the Gaussian log-likelihoods, the negative
    log-likelihood objectives, the uniform log-prior and the
    log-posterior [log_probability].

    Numbers.  A NumPy float is modelled by [npfloat]: a real number, or one
    of the three IEEE special values [+inf], [-inf], [nan].  Arithmetic on
    finite values is exact real arithmetic (rounding, underflow, overflow and
    the sign of zero are not modelled, and a decimal literal such as [0.1]
    stands for that decimal number); the special values follow the IEEE rules
    that NumPy applies ([inf - inf = nan], [0 * inf = nan], [x / 0 = +-inf],
    [log 0 = -inf], comparisons with [nan] are false, ...).  A finite
    product or sum of the model can therefore stand for a double that has
    underflowed to zero or overflowed to an infinity, and sums are
    associative where sums of doubles are not.  The properties below are
    stated so as not to depend on this: as equalities between expressions in
    the operations of the code, as comparisons and special values, or for
    arguments in ranges (sigma within its bounds, residuals of moderate
    size) where a double neither underflows nor overflows.

    Arrays.  The trajectories returned by [odeint] and the datasets built
    from them are two-dimensional: a list of rows, one row per time point.

    Exceptions.  Python code that can raise returns a [result].

    External collaborators.  [scipy.integrate.odeint] and the generator
    behind [np.random] are not part of the repository.  The notebook's
    functions take the integrator and the generator as arguments; the
    properties hold for every integrator and every generator, and are run on
    two small concrete ones ([euler_odeint], [lcg]).  The qualitative
    behaviour of the logistic model is that of the exact solution of the
    initial-value problem that [odeint] is given ([solves]); the array an
    integrator returns approximates that solution and need not share its
    monotonicity or its bound. *)

From Stdlib Require Import Reals Lra Lia List ZArith Bool Sorted.
Import ListNotations.

Local Open Scope R_scope.

(** ** NumPy floats *)

Module NumPy.

Inductive npfloat : Type :=
| Fin (x : R)
| PInf
| NInf
| NaN.

(** Sign of a real number, by trichotomy. *)
Definition Rsign (x : R) : comparison :=
  match total_order_T x 0 with
  | inleft (left _) => Lt
  | inleft (right _) => Eq
  | inright _ => Gt
  end.

Definition Rltb (a b : R) : bool := if Rlt_dec a b then true else false.
Definition Rleb (a b : R) : bool := if Rle_dec a b then true else false.

Definition neg (a : npfloat) : npfloat :=
  match a with
  | Fin x => Fin (- x)
  | PInf => NInf
  | NInf => PInf
  | NaN => NaN
  end.

(** [a + b].  The sum of two finite values is their exact sum: it is not
    rounded and does not overflow, and it is associative where the sum of
    doubles is not. *)
Definition add (a b : npfloat) : npfloat :=
  match a, b with
  | NaN, _ | _, NaN => NaN
  | Fin x, Fin y => Fin (x + y)
  | PInf, NInf | NInf, PInf => NaN
  | PInf, _ | _, PInf => PInf
  | NInf, _ | _, NInf => NInf
  end.

Definition sub (a b : npfloat) : npfloat := add a (neg b).

(** An infinity of the sign given by [c]; [nan] for a zero sign. *)
Definition signed_inf (c : comparison) : npfloat :=
  match c with
  | Gt => PInf
  | Lt => NInf
  | Eq => NaN
  end.

(** [a * b].  The product of two finite values is their exact product: it
    neither underflows to zero nor overflows to an infinity. *)
Definition mul (a b : npfloat) : npfloat :=
  match a, b with
  | NaN, _ | _, NaN => NaN
  | Fin x, Fin y => Fin (x * y)
  | Fin x, PInf | PInf, Fin x => signed_inf (Rsign x)
  | Fin x, NInf | NInf, Fin x => signed_inf (CompOpp (Rsign x))
  | PInf, PInf | NInf, NInf => PInf
  | PInf, NInf | NInf, PInf => NInf
  end.

Definition div (a b : npfloat) : npfloat :=
  match a, b with
  | NaN, _ | _, NaN => NaN
  | Fin x, Fin y =>
      match Rsign y with
      | Eq => signed_inf (Rsign x)
      | _ => Fin (x / y)
      end
  | Fin _, (PInf | NInf) => Fin 0
  | PInf, Fin y => match Rsign y with Lt => NInf | _ => PInf end
  | NInf, Fin y => match Rsign y with Lt => PInf | _ => NInf end
  | (PInf | NInf), (PInf | NInf) => NaN
  end.

(** [x ** 2]. *)
Definition square (a : npfloat) : npfloat := mul a a.

(** [np.log]. *)
Definition log (a : npfloat) : npfloat :=
  match a with
  | Fin x =>
      match Rsign x with
      | Gt => Fin (ln x)
      | Eq => NInf
      | Lt => NaN
      end
  | PInf => PInf
  | NInf | NaN => NaN
  end.

(** [a < b]; false as soon as one side is [nan]. *)
Definition ltb (a b : npfloat) : bool :=
  match a, b with
  | NaN, _ | _, NaN => false
  | Fin x, Fin y => Rltb x y
  | NInf, (Fin _ | PInf) => true
  | Fin _, PInf => true
  | _, _ => false
  end.

(** [a <= b]; false as soon as one side is [nan]. *)
Definition leb (a b : npfloat) : bool :=
  match a, b with
  | NaN, _ | _, NaN => false
  | Fin x, Fin y => Rleb x y
  | NInf, _ => true
  | _, PInf => true
  | _, _ => false
  end.

(** [np.isfinite], [np.isnan]. *)
Definition isfinite (a : npfloat) : bool :=
  match a with Fin _ => true | _ => false end.

Definition isnan (a : npfloat) : bool :=
  match a with NaN => true | _ => false end.

(** [np.pi]. *)
Definition pi : npfloat := Fin PI.

(** *** Exceptions *)

Inductive exn : Type :=
| ValueError    (* unpacking a sequence of the wrong length; shapes that do not broadcast *)
| IndexError.   (* index out of range *)

Inductive result (A : Type) : Type :=
| Ok (a : A)
| Raise (e : exn).
Arguments Ok {A} a.
Arguments Raise {A} e.

Definition rbind {A B} (m : result A) (k : A -> result B) : result B :=
  match m with
  | Ok a => k a
  | Raise e => Raise e
  end.

(** [seq[i]] for a non-negative index. *)
Definition getitem {A} (l : list A) (i : nat) : result A :=
  match nth_error l i with
  | Some a => Ok a
  | None => Raise IndexError
  end.

(** *** Arrays

    A one-dimensional array is a list, a two-dimensional array the list of
    its rows. *)

Definition array1 := list npfloat.
Definition array2 := list (list npfloat).

(** Run a list of fallible computations, left to right. *)
Fixpoint sequence {A} (l : list (result A)) : result (list A) :=
  match l with
  | [] => Ok []
  | r :: rs =>
      rbind r (fun a => rbind (sequence rs) (fun rest => Ok (a :: rest)))
  end.

Fixpoint zip_with {A B C} (f : A -> B -> C) (xs : list A) (ys : list B) : list C :=
  match xs, ys with
  | x :: xs', y :: ys' => f x y :: zip_with f xs' ys'
  | _, _ => []
  end.

(** Broadcasting along one axis: equal lengths go element by element, an
    axis of length 1 is stretched to the other length, anything else does
    not broadcast. *)
Definition broadcast {A B C} (f : A -> B -> C) (xs : list A) (ys : list B)
  : result (list C) :=
  if Nat.eqb (length xs) (length ys) then Ok (zip_with f xs ys)
  else
    match xs, ys with
    | [x], _ => Ok (map (f x) ys)
    | _, [y] => Ok (map (fun x => f x y) xs)
    | _, _ => Raise ValueError
    end.

(** [a - b] on two-dimensional arrays. *)
Definition sub2 (a b : array2) : result array2 :=
  rbind (broadcast (broadcast sub) a b) sequence.

(** Element-wise operations with a scalar. *)
Definition map2d (f : npfloat -> npfloat) (a : array2) : array2 :=
  map (map f) a.

(** [np.sum] over all the entries. *)
Definition sum1 (a : array1) : npfloat := fold_right add (Fin 0) a.
Definition sum (a : array2) : npfloat := sum1 (concat a).

(** [abs(x)]. *)
Definition absolute (a : npfloat) : npfloat :=
  match a with
  | Fin x => Fin (Rabs x)
  | PInf | NInf => PInf
  | NaN => NaN
  end.

(** [np.diff]: the differences of neighbouring entries. *)
Fixpoint diff (a : array1) : array1 :=
  match a with
  | x :: (y :: _) as rest => sub y x :: diff rest
  | _ => []
  end.

(** [np.zeros((rows, cols))]. *)
Definition zeros (rows cols : nat) : array2 := repeat (repeat (Fin 0) cols) rows.

End NumPy.

(** ** The integrator interface ([scipy.integrate.odeint]) *)

Module SciPy.
Import NumPy.

(** A right-hand side [func(y, t, theta)], returning the derivative vector. *)
Definition rhs : Type := array1 -> npfloat -> array1 -> result array1.

(** [odeint(func, y0, t, args=(theta,))]: one row per time point. *)
Definition integrator : Type := rhs -> array1 -> array1 -> array1 -> result array2.

(** [odeint] accepts a right-hand side that returns a scalar and treats it
    as a vector of length one. *)
Definition scalar_rhs (f : array1 -> npfloat -> array1 -> result npfloat) : rhs :=
  fun y t theta => rbind (f y t theta) (fun d => Ok [d]).

(** A concrete integrator, used to run the notebook's functions on small
    inputs: explicit Euler steps from one grid point to the next.  Like
    every integrator it returns the initial state in the first row. *)
Fixpoint euler_steps (f : array1 -> npfloat -> result array1)
    (y : array1) (t : npfloat) (ts : array1) : result array2 :=
  match ts with
  | [] => Ok []
  | t' :: ts' =>
      rbind (f y t) (fun dy =>
      let y' := zip_with (fun yi di => add yi (mul (sub t' t) di)) y dy in
      rbind (euler_steps f y' t' ts') (fun rest => Ok (y' :: rest)))
  end.

Definition euler_odeint : integrator :=
  fun func y0 t theta =>
    match t with
    | [] => Raise ValueError
    | t0 :: ts =>
        rbind (euler_steps (fun y s => func y s theta) y0 t0 ts)
              (fun rest => Ok (y0 :: rest))
    end.

End SciPy.

(** ** The notebook *)

Module Calibration.
Import NumPy SciPy.

(** *** Evaluation monad

    The functions that call [odeint] run in a state-and-exception monad.
    The state counts the forward-model evaluations (calls of [odeint]) made
    so far; it is what makes the absence of a likelihood evaluation a statement
    about the code. *)

Definition M (A : Type) : Type := nat -> result A * nat.

Definition ret {A} (a : A) : M A := fun n => (Ok a, n).

Definition bind {A B} (m : M A) (k : A -> M B) : M B :=
  fun n =>
    match m n with
    | (Ok a, n') => k a n'
    | (Raise e, n') => (Raise e, n')
    end.

Definition lift {A} (r : result A) : M A := fun n => (r, n).

Declare Scope eval_scope.
Delimit Scope eval_scope with eval.
Notation "x <- m ;; k" := (bind m (fun x => k))
  (at level 61, m at next level, right associativity) : eval_scope.
Notation "' pat <- m ;; k" := (bind m (fun x => match x with pat => k end))
  (at level 61, pat pattern, m at next level, right associativity) : eval_scope.
Local Open Scope eval_scope.

(** [a, b, c = theta] and [a, b, c, d = theta]. *)
Definition unpack3 {A} (l : list A) : result (A * A * A) :=
  match l with
  | [a; b; c] => Ok (a, b, c)
  | _ => Raise ValueError
  end.

Definition unpack4 {A} (l : list A) : result (A * A * A * A) :=
  match l with
  | [a; b; c; d] => Ok (a, b, c, d)
  | _ => Raise ValueError
  end.

(** *** Right-hand sides *)

(** [def control_tumor(y, t, theta):
       return theta[0] * y[0] * (1.0 - y[0] / theta[1])] *)
Definition control_tumor (y : array1) (t : npfloat) (theta : array1)
  : result npfloat :=
  rbind (getitem theta 0) (fun th0 =>
  rbind (getitem y 0) (fun y0 =>
  rbind (getitem theta 1) (fun th1 =>
  Ok (mul (mul th0 y0) (sub (Fin 1) (div y0 th1)))))).

(** [def treated_tumor(y, t, theta):
       tumor=theta[0] * y[0] * (1.0 - y[0] / theta[1])-theta[2]*y[0]*y[1]
       drug=-theta[3] * y[0] * y[1]
       return [tumor,drug]] *)
Definition treated_tumor (y : array1) (t : npfloat) (theta : array1)
  : result array1 :=
  rbind (getitem theta 0) (fun th0 =>
  rbind (getitem y 0) (fun y0 =>
  rbind (getitem theta 1) (fun th1 =>
  rbind (getitem theta 2) (fun th2 =>
  rbind (getitem y 1) (fun y1 =>
  let tumor := sub (mul (mul th0 y0) (sub (Fin 1) (div y0 th1)))
                   (mul (mul th2 y0) y1) in
  rbind (getitem theta 3) (fun th3 =>
  let drug := mul (mul (neg th3) y0) y1 in
  Ok [tumor; drug])))))).

(** *** Scenario constants *)

(** [times = np.arange(0,50,1)] *)
Definition times : array1 := map (fun k => Fin (INR k)) (seq 0 50).

Definition true_r : npfloat := Fin (25 / 100).
Definition true_K : npfloat := Fin 60.
Definition true_ic : npfloat := Fin 1.
Definition true_sigma : npfloat := Fin (36 / 10).

(** The constants of the exercise cells (tumour and drug). *)
Module Exercise.

(** [times = np.arange(0,50,0.5)] *)
Definition times : array1 := map (fun k => Fin (INR k / 2)) (seq 0 100).

Definition r : npfloat := Fin (25 / 100).
Definition K : npfloat := Fin 60.
Definition f : npfloat := Fin (1 / 10).
Definition g : npfloat := Fin (2 / 10).
Definition tumor_ic : npfloat := Fin 1.
Definition drug_ic : npfloat := Fin 5.
Definition true_sigmaT : npfloat := Fin (36 / 10).
Definition true_sigmaD : npfloat := Fin (2 / 10).

End Exercise.

(** [Bounds([0.0, 10.0, 0.1], [1.0, 120.0, 30.0])] and
    [Bounds([0.0, 10.0, 0.1, 0.1], [1.0, 120.0, 30.0, 20.0])]: the boxes
    handed to [minimize]. *)
Record Bounds : Type := mkBounds { lb : list R; ub : list R }.

Definition bounds_4 : Bounds := mkBounds [0; 10; 1/10; 1/10] [1; 120; 30; 20].

(** *** Likelihoods and posterior, over an integrator *)

Section Likelihood.

Variable integrate : integrator.

(** A call of [odeint]: one more forward-model evaluation. *)
Definition odeint (func : rhs) (y0 t theta : array1) : M array2 :=
  fun n => (integrate func y0 t theta, S n).

(** [variance = cal_sigma*cal_sigma] *)
Definition variance_of (cal_sigma : npfloat) : npfloat := mul cal_sigma cal_sigma.

(** [def log_likelihood(theta, times, y):
       cal_r, cal_K, cal_sigma = theta
       model = odeint(control_tumor, t=times, y0=y[0], args=tuple([[cal_r,cal_K]]))
       variance = cal_sigma*cal_sigma
       return -0.5 * np.sum(np.log(2*np.pi)+np.log(variance) + (y - model) ** 2 / variance)] *)
Definition log_likelihood (theta times : array1) (y : array2) : M npfloat :=
  ' (cal_r, cal_K, cal_sigma) <- lift (unpack3 theta) ;;
  y_0 <- lift (getitem y 0) ;;
  model <- odeint (scalar_rhs control_tumor) y_0 times [cal_r; cal_K] ;;
  let variance := variance_of cal_sigma in
  resid <- lift (sub2 y model) ;;
  ret (mul (Fin (-1 / 2))
         (sum (map2d (fun e => add (add (log (mul (Fin 2) pi)) (log variance))
                                   (div (square e) variance))
                     resid))).

(** [def log_likelihood_ic(theta, times, y):
       cal_r, cal_K, cal_sigma, cal_ic = theta
       model = odeint(control_tumor, t=times, y0=cal_ic, args=tuple([[cal_r,cal_K]]))
       variance = cal_sigma*cal_sigma
       return -0.5 * np.sum((y - model) ** 2 / variance + np.log(2*np.pi) + np.log(variance))] *)
Definition log_likelihood_ic (theta times : array1) (y : array2) : M npfloat :=
  ' (cal_r, cal_K, cal_sigma, cal_ic) <- lift (unpack4 theta) ;;
  model <- odeint (scalar_rhs control_tumor) [cal_ic] times [cal_r; cal_K] ;;
  let variance := variance_of cal_sigma in
  resid <- lift (sub2 y model) ;;
  ret (mul (Fin (-1 / 2))
         (sum (map2d (fun e => add (add (div (square e) variance)
                                        (log (mul (Fin 2) pi)))
                                   (log variance))
                     resid))).

(** The objective [nll], the negated [log_likelihood], and its second
    binding in the notebook, the negated [log_likelihood_ic]. *)
Definition nll (theta times : array1) (y : array2) : M npfloat :=
  v <- log_likelihood theta times y ;; ret (neg v).

Definition nll_ic (theta times : array1) (y : array2) : M npfloat :=
  v <- log_likelihood_ic theta times y ;; ret (neg v).

(** [def log_prior(theta):
       cal_r, cal_K, cal_sigma, cal_ic = theta
       if 0.0 < cal_r < 1.0 and 10.0 < cal_K < 120.0 and 0.1 < cal_sigma < 30.0 and 0.1 < cal_ic < 20.0:
           return 0.0
       return -np.inf] *)
Definition log_prior (theta : array1) : result npfloat :=
  rbind (unpack4 theta) (fun '(cal_r, cal_K, cal_sigma, cal_ic) =>
  if (ltb (Fin 0) cal_r && ltb cal_r (Fin 1))
     && (ltb (Fin 10) cal_K && ltb cal_K (Fin 120))
     && (ltb (Fin (1/10)) cal_sigma && ltb cal_sigma (Fin 30))
     && (ltb (Fin (1/10)) cal_ic && ltb cal_ic (Fin 20))
  then Ok (Fin 0)
  else Ok NInf).

(** [def log_probability(theta, times, y):
       lp = log_prior(theta)
       if not np.isfinite(lp):
           return -np.inf
       return lp + log_likelihood_ic(theta, times, y)] *)
Definition log_probability (theta times : array1) (y : array2) : M npfloat :=
  lp <- lift (log_prior theta) ;;
  if negb (isfinite lp) then ret NInf
  else ll <- log_likelihood_ic theta times y ;; ret (add lp ll).

End Likelihood.

(** *** Synthetic data, over a random generator

    [np.random] keeps one global generator state.  [np.random.seed(s)]
    replaces it by a state that depends on [s] only; every draw of
    [np.random.normal(loc, scale)] takes the next standard normal deviate
    [z] from the state and returns [loc + scale * z]. *)

(** The generator behind [np.random]: its states, the state installed by
    seeding, and the draw of one standard normal deviate. *)
Record RandomSource : Type := mkRandomSource {
  rng_state : Type;
  seed_state : Z -> rng_state;
  standard_normal : rng_state -> R * rng_state
}.

Section Generator.

Variable G : RandomSource.

Definition np_random_seed (s : Z) (st : rng_state G) : rng_state G := seed_state G s.

Definition normal (loc scale : npfloat) (st : rng_state G) : npfloat * rng_state G :=
  let (z, st') := standard_normal G st in
  (add loc (mul scale (Fin z)), st').

(** [np.random.normal] on an array of locations, in index order. *)
Fixpoint normal1 (locs : array1) (scale : npfloat) (st : rng_state G)
  : array1 * rng_state G :=
  match locs with
  | [] => ([], st)
  | l :: ls =>
      let (x, st1) := normal l scale st in
      let (xs, st2) := normal1 ls scale st1 in
      (x :: xs, st2)
  end.

Fixpoint normal2 (locs : array2) (scale : npfloat) (st : rng_state G)
  : array2 * rng_state G :=
  match locs with
  | [] => ([], st)
  | row :: rows =>
      let (x, st1) := normal1 row scale st in
      let (xs, st2) := normal2 rows scale st1 in
      (x :: xs, st2)
  end.

(** [yobs[yobs < 0] = 0] *)
Definition clip_negative (a : array2) : array2 :=
  map2d (fun e => if ltb e (Fin 0) then Fin 0 else e) a.

(** [a[:,k]] and [a[:,k] = v].  A list of rows carries no column count
    when it has no row: every column of the empty list is empty, where
    NumPy raises [IndexError] on a zero-row array with too few columns. *)
Definition column (k : nat) (a : array2) : result array1 :=
  sequence (map (fun row => getitem row k) a).

Fixpoint set_item {A} (k : nat) (x : A) (l : list A) : list A :=
  match l, k with
  | [], _ => []
  | _ :: l', O => x :: l'
  | a :: l', S k' => a :: set_item k' x l'
  end.

Definition set_column (k : nat) (v : array1) (a : array2) : array2 :=
  zip_with (fun row x => set_item k x row) a v.

(** [true_sigma = 3.6
     np.random.seed(2021)
     yobs = np.random.normal(y,true_sigma)
     yobs[yobs < 0] = 0] *)
Definition perturb (y : array2) (st : rng_state G) : array2 * rng_state G :=
  let st := np_random_seed 2021 st in
  let (yobs, st) := normal2 y true_sigma st in
  (clip_negative yobs, st).

(** [true_sigmaT = 3.6
     np.random.seed(2021)
     yobs = np.copy(y)
     yobs[:,0] = np.random.normal(y[:,0],true_sigmaT)
     true_sigmaD = 0.2
     yobs[:,1] = np.random.normal(y[:,1],true_sigmaD)
     yobs[yobs < 0] = 0] *)
Definition perturb_exercise (y : array2) (st : rng_state G)
  : result array2 * rng_state G :=
  let st := np_random_seed 2021 st in
  let yobs := y in
  match column 0 y with
  | Raise e => (Raise e, st)
  | Ok y_0 =>
      let (n_0, st) := normal1 y_0 Exercise.true_sigmaT st in
      let yobs := set_column 0 n_0 yobs in
      match column 1 y with
      | Raise e => (Raise e, st)
      | Ok y_1 =>
          let (n_1, st) := normal1 y_1 Exercise.true_sigmaD st in
          let yobs := set_column 1 n_1 yobs in
          (Ok (clip_negative yobs), st)
      end
  end.

(** The two data generators, from the forward model to the clipped
    observations:
    [y = odeint(control_tumor, t=times, y0=true_ic, args=tuple([[true_r,true_K]]))]
    and
    [y = odeint(treated_tumor, t=times, y0=[tumor_ic,drug_ic], args=tuple([[r,K,f,g]]))],
    each followed by its perturbation cell. *)
Definition generate (integrate : integrator) (st : rng_state G)
  : result array2 * rng_state G :=
  match integrate (scalar_rhs control_tumor) [true_ic] times [true_r; true_K] with
  | Raise e => (Raise e, st)
  | Ok y => let (yobs, st') := perturb y st in (Ok yobs, st')
  end.

Definition generate_exercise (integrate : integrator) (st : rng_state G)
  : result array2 * rng_state G :=
  match integrate treated_tumor [Exercise.tumor_ic; Exercise.drug_ic]
          Exercise.times [Exercise.r; Exercise.K; Exercise.f; Exercise.g] with
  | Raise e => (Raise e, st)
  | Ok y => perturb_exercise y st
  end.

End Generator.

(** *** Exact trajectories

    [odeint] approximates the solution of the initial-value problem
    [u' = func(u, t, theta)], [u(t0) = y0], where [t0] is the first point of
    the time grid.  [solves] says that [u] is that solution for a scalar
    right-hand side.  It describes the exact solution, not the array that an
    integrator returns. *)
Definition solves (func : array1 -> npfloat -> array1 -> result npfloat)
    (theta : array1) (t0 y0 : R) (u : R -> R) : Prop :=
  u t0 = y0 /\
  forall t, t0 <= t ->
    exists d, func [Fin (u t)] (Fin t) theta = Ok (Fin d) /\ derivable_pt_lim u t d.

(** The logistic curve through [(t0, y0)]. *)
Definition logistic_denominator (r K t0 y0 : R) (t : R) : R :=
  y0 + (K - y0) * exp (- (r * (t - t0))).

Definition logistic (r K t0 y0 : R) (t : R) : R :=
  y0 * K / logistic_denominator r K t0 y0 t.

(** How far a function [u] is from the logistic curve, and the rate at
    which that distance evolves along a solution. *)
Definition logistic_defect (r K t0 y0 : R) (u : R -> R) (t : R) : R :=
  u t * logistic_denominator r K t0 y0 t - y0 * K.

Definition logistic_rate (r K : R) (u : R -> R) (t : R) : R :=
  - (r / K) * u t.

(** *** Boxes, as the claims word them *)

(** [x] lies strictly between [lo] and [hi]. *)
Definition strictly_between (lo hi : R) (x : npfloat) : Prop :=
  match x with
  | Fin v => lo < v < hi
  | _ => False
  end.


(** All components inside the box from [lo] to [hi]; [inside] chooses open
    or closed intervals. *)
Fixpoint in_box (inside : R -> R -> npfloat -> Prop) (lo hi : list R)
    (theta : array1) : Prop :=
  match lo, hi, theta with
  | [], [], [] => True
  | l :: lo', h :: hi', x :: theta' => inside l h x /\ in_box inside lo' hi' theta'
  | _, _, _ => False
  end.

(** A parameter vector of the right length with at least one component
    outside its interval. *)
Definition outside_box (inside : R -> R -> npfloat -> Prop) (b : Bounds)
    (theta : array1) : Prop :=
  length theta = length (lb b) /\ ~ in_box inside (lb b) (ub b) theta.

(** Some component sits exactly on one of its two bounds. *)
Fixpoint on_boundary (lo hi : list R) (theta : array1) : Prop :=
  match lo, hi, theta with
  | l :: lo', h :: hi', x :: theta' =>
      x = Fin l \/ x = Fin h \/ on_boundary lo' hi' theta'
  | _, _, _ => False
  end.

(** Entry-wise predicates on arrays. *)
Definition not_nan (v : npfloat) : Prop := isnan v = false.
Definition finite (v : npfloat) : Prop := isfinite v = true.

(** A vector of [k] finite components. *)
Definition finite_vec (k : nat) (v : array1) : Prop :=
  length v = k /\ Forall finite v.

(** The row lengths of a two-dimensional array. *)
Definition shape (a : array2) : list nat := map (@length npfloat) a.

(** The behaviour of a likelihood summand at a residual against a finite
    observation: finite for a finite model value, [+inf] for an infinite
    one, [nan] for [nan]. *)
Definition gaussian_like (term : npfloat -> npfloat) : Prop :=
  (forall e, exists g, term (Fin e) = Fin g) /\
  term PInf = PInf /\ term NInf = PInf /\ term NaN = NaN.

(** One Euler step of the logistic model from [y = 1] at [t = 0] to [t = 1]
    with [r = 1/4], [K = 60]. *)
Definition euler_y1 : R := 1 + (1 + - 0) * (1 / 4 * 1 * (1 + - (1 / 60))).

(** A small concrete generator, used to run the data cells: a linear
    congruential state, mapped to a deviate between -3 and 3. *)
Definition lcg : RandomSource :=
  mkRandomSource Z (fun s => s)
    (fun st => (IZR (st mod 7 - 3), (1103515245 * st + 12345) mod 2147483648)%Z).

Definition all_entries (P : npfloat -> Prop) (a : array2) : Prop :=
  Forall (Forall P) a.

Definition nonnegative (x : npfloat) : Prop := leb (Fin 0) x = true.

(** A list of values as a two-dimensional array with one column, the shape
    of the trajectories and datasets of the single-compartment scenario. *)
Definition column_of (l : array1) : array2 := map (fun v => [v]) l.
Definition as_column (l : list R) : array2 := column_of (map Fin l).

(** The summand of [log_likelihood] and the summand of [log_likelihood_ic]
    at a residual [e]. *)
Definition summand (variance e : npfloat) : npfloat :=
  add (add (log (mul (Fin 2) pi)) (log variance)) (div (square e) variance).

Definition summand_ic (variance e : npfloat) : npfloat :=
  add (add (div (square e) variance) (log (mul (Fin 2) pi))) (log variance).

(** The four chained comparisons of [log_prior], as one test. *)
Definition prior_test (cal_r cal_K cal_sigma cal_ic : npfloat) : bool :=
  (ltb (Fin 0) cal_r && ltb cal_r (Fin 1))
  && (ltb (Fin 10) cal_K && ltb cal_K (Fin 120))
  && (ltb (Fin (1/10)) cal_sigma && ltb cal_sigma (Fin 30))
  && (ltb (Fin (1/10)) cal_ic && ltb cal_ic (Fin 20)).


(** *** Reporting cells *)

(** [error_r=100*abs(ml_r-true_r)/true_r], and the same expression for K,
    sigma and the initial condition. *)
Definition percent_error (ml truth : npfloat) : npfloat :=
  div (mul (Fin 100) (absolute (sub ml truth))) truth.

(** [mcmc = np.percentile(flat_samples[:, i], [16, 50, 84])
     q = np.diff(mcmc)
     txt = txt.format(mcmc[1], q[0], q[1], labels[i])]: the three numbers
    displayed for a parameter, from the percentiles [mcmc]; the text shows
    the first, the second after a minus sign as subscript and the third as
    superscript. *)
Definition credible_summary (mcmc : array1) : result (npfloat * npfloat * npfloat) :=
  let q := diff mcmc in
  rbind (getitem mcmc 1) (fun m1 =>
  rbind (getitem q 0) (fun q0 =>
  rbind (getitem q 1) (fun q1 =>
  Ok (m1, q0, q1)))).

(** *** Initial positions of the walkers *)

(** [seq[k] = x] on an existing index. *)
Definition setitem {A} (l : list A) (k : nat) (x : A) : result (list A) :=
  if Nat.ltb k (length l) then Ok (set_item k x l) else Raise IndexError.

(** [a[i][j] = x]. *)
Definition setitem2 (a : array2) (i j : nat) (x : npfloat) : result array2 :=
  rbind (getitem a i) (fun row =>
  rbind (setitem row j x) (fun row' =>
  setitem a i row')).

Definition nwalkers : nat := 10.
Definition ndim : nat := 4.

Section Walkers.

Variable G : RandomSource.

(** One draw of [np.random.random_sample()], a number in [0, 1). *)
Variable random_sample : rng_state G -> R * rng_state G.

(** Computations that draw from the generator and may raise. *)
Definition Gen (A : Type) : Type := rng_state G -> result A * rng_state G.

Definition gbind {A B} (m : Gen A) (k : A -> Gen B) : Gen B :=
  fun st =>
    match m st with
    | (Ok a, st') => k a st'
    | (Raise e, st') => (Raise e, st')
    end.

(** [np.random.uniform(low, high)]: [low + (high - low) * u] for the next
    draw [u]. *)
Definition uniform (low high : R) (st : rng_state G) : npfloat * rng_state G :=
  let (u, st') := random_sample st in
  (Fin (low + (high - low) * u), st').

(** [pos[i][j] = np.random.uniform(low, high)] *)
Definition draw_into (pos : array2) (i j : nat) (low high : R) : Gen array2 :=
  fun st =>
    let (v, st') := uniform low high st in
    (setitem2 pos i j v, st').

(** The body of the loop, for walker [i]:
    [pos[i][0] = np.random.uniform(0.0,1.0)
     pos[i][1] = np.random.uniform(10.0,120.0)
     pos[i][2] = np.random.uniform(0.1,30.0)
     pos[i][3] = np.random.uniform(0.1,20.0)] *)
Definition fill_walker (pos : array2) (i : nat) : Gen array2 :=
  gbind (draw_into pos i 0 0 1) (fun pos =>
  gbind (draw_into pos i 1 10 120) (fun pos =>
  gbind (draw_into pos i 2 (1/10) 30) (fun pos =>
  draw_into pos i 3 (1/10) 20))).

Fixpoint fill_walkers (indices : list nat) (pos : array2) : Gen array2 :=
  match indices with
  | [] => fun st => (Ok pos, st)
  | i :: rest => gbind (fill_walker pos i) (fill_walkers rest)
  end.

(** [pos=np.zeros((nwalkers,ndim))
     for i in range(nwalkers): ...] *)
Definition initial_positions : Gen array2 :=
  fill_walkers (seq 0 nwalkers) (zeros nwalkers ndim).

End Walkers.

(** A draw for [lcg]: always one half. *)
Definition lcg_random_sample (st : rng_state lcg) : R * rng_state lcg :=
  (1 / 2, (st + 1)%Z).

(** A bound on the size of a residual, far below the square root of the
    largest double. *)
Definition moderate (x : R) : Prop := Rabs x <= 10 ^ 100.



(** What [yobs[yobs < 0] = 0] does to one entry. *)
Definition clip_entry (e : npfloat) : npfloat :=
  if ltb e (Fin 0) then Fin 0 else e.

(** [x] lies in the interval from [lo] (included) to [hi] (excluded). *)
Definition half_open (lo hi : R) (x : npfloat) : Prop :=
  match x with
  | Fin v => lo <= v < hi
  | _ => False
  end.

End Calibration.

(** * Properties *)

Import NumPy SciPy Calibration.

(** ** Facts about the number model *)

Lemma Rsign_pos (x : R) : 0 < x -> Rsign x = Gt.
Proof.
  intros H. unfold Rsign.
  destruct (total_order_T x 0) as [[Hlt | Heq] | Hgt]; try reflexivity; lra.
Qed.

Lemma Rsign_neg (x : R) : x < 0 -> Rsign x = Lt.
Proof.
  intros H. unfold Rsign.
  destruct (total_order_T x 0) as [[Hlt | Heq] | Hgt]; try reflexivity; lra.
Qed.

Lemma Rsign_zero : Rsign 0 = Eq.
Proof.
  unfold Rsign.
  destruct (total_order_T 0 0) as [[Hlt | Heq] | Hgt]; try reflexivity; lra.
Qed.

Lemma Rsign_nonzero (x : R) : x <> 0 -> Rsign x <> Eq.
Proof.
  intros H. unfold Rsign.
  destruct (total_order_T x 0) as [[Hlt | Heq] | Hgt]; congruence.
Qed.

Lemma Rltb_true (a b : R) : Rltb a b = true <-> a < b.
Proof.
  unfold Rltb. destruct (Rlt_dec a b); split; intros; try discriminate; tauto.
Qed.

Lemma Rltb_false (a b : R) : Rltb a b = false <-> ~ a < b.
Proof.
  unfold Rltb. destruct (Rlt_dec a b); split; intros; try discriminate; tauto.
Qed.

Lemma Rleb_true (a b : R) : Rleb a b = true <-> a <= b.
Proof.
  unfold Rleb. destruct (Rle_dec a b); split; intros; try discriminate; tauto.
Qed.

(** The chained comparison [lo < x < hi] of the prior is the open interval. *)
Lemma chain_strictly_between (lo hi : R) (x : npfloat) :
  ltb (Fin lo) x && ltb x (Fin hi) = true <-> strictly_between lo hi x.
Proof.
  destruct x as [v | | |]; simpl.
  - rewrite andb_true_iff, !Rltb_true. tauto.
  - split; [discriminate | tauto].
  - split; [discriminate | tauto].
  - split; [discriminate | tauto].
Qed.

Lemma chain_not_between (lo hi : R) (x : npfloat) :
  ~ strictly_between lo hi x -> ltb (Fin lo) x && ltb x (Fin hi) = false.
Proof.
  intros H. apply not_true_is_false. rewrite chain_strictly_between. exact H.
Qed.

(** ** The prior and the posterior *)

Lemma log_prior_unfold (a b c d : npfloat) :
  log_prior [a; b; c; d] = if prior_test a b c d then Ok (Fin 0) else Ok NInf.
Proof. reflexivity. Qed.

Lemma prior_test_in_box (a b c d : npfloat) :
  prior_test a b c d = true <->
  in_box strictly_between (lb bounds_4) (ub bounds_4) [a; b; c; d].
Proof.
  unfold prior_test. cbn [in_box lb ub bounds_4].
  rewrite <- !chain_strictly_between.
  repeat match goal with
         | |- context [ltb ?x ?v && ltb ?v ?z] => destruct (ltb x v && ltb v z)
         end; simpl; intuition congruence.
Qed.

Lemma length_4 {A} (l : list A) :
  length l = 4%nat -> exists a b c d, l = [a; b; c; d].
Proof.
  destruct l as [| a [| b [| c [| d [| e l]]]]]; simpl; try discriminate.
  intros _. now exists a, b, c, d.
Qed.

Lemma length_3 {A} (l : list A) :
  length l = 3%nat -> exists a b c, l = [a; b; c].
Proof.
  destruct l as [| a [| b [| c [| d l]]]]; simpl; try discriminate.
  intros _. now exists a, b, c.
Qed.

(** Outside the open box the prior is [-inf]. *)
Lemma log_prior_outside (theta : array1) :
  outside_box strictly_between bounds_4 theta -> log_prior theta = Ok NInf.
Proof.
  intros [Hlen Hout].
  destruct (length_4 theta Hlen) as (a & b & c & d & ->).
  rewrite log_prior_unfold.
  destruct (prior_test a b c d) eqn:E; [| reflexivity].
  apply prior_test_in_box in E. contradiction.
Qed.

(** Inside the open box the prior is [0.0]. *)
Lemma log_prior_inside (theta : array1) :
  in_box strictly_between (lb bounds_4) (ub bounds_4) theta ->
  log_prior theta = Ok (Fin 0).
Proof.
  intros Hin.
  destruct theta as [| a [| b [| c [| d [| e l]]]]]; simpl in Hin; try tauto.
  rewrite log_prior_unfold.
  assert (E : prior_test a b c d = true) by (apply prior_test_in_box; simpl; tauto).
  now rewrite E.
Qed.


Section Posterior.

Variable integrate : integrator.

(** When the prior is [-inf] the posterior returns [-inf] at once. *)
Lemma log_probability_short_circuit (theta times : array1) (y : array2) (n : nat) :
  log_prior theta = Ok NInf ->
  log_probability integrate theta times y n = (Ok NInf, n).
Proof.
  intros H. unfold log_probability, bind, lift. rewrite H. reflexivity.
Qed.

(** Every evaluation of the likelihood with four parameters integrates the
    forward model once. *)
Lemma log_likelihood_ic_counts (theta times : array1) (y : array2) (n : nat) :
  length theta = 4%nat ->
  snd (log_likelihood_ic integrate theta times y n) = S n.
Proof.
  intros Hlen. destruct (length_4 theta Hlen) as (a & b & c & d & ->).
  unfold log_likelihood_ic, bind, lift, odeint, ret. simpl.
  destruct (integrate _ _ _ _); [| reflexivity].
  destruct (sub2 y a0); reflexivity.
Qed.

(** Inside the box the posterior does evaluate the likelihood. *)
Lemma log_probability_inside_counts (theta times : array1) (y : array2) (n : nat) :
  in_box strictly_between (lb bounds_4) (ub bounds_4) theta ->
  snd (log_probability integrate theta times y n) = S n.
Proof.
  intros Hin.
  assert (Hlen : length theta = 4%nat).
  { destruct theta as [| a [| b [| c [| d [| e l]]]]]; simpl in Hin; tauto. }
  pose proof (log_likelihood_ic_counts theta times y n Hlen) as Hc.
  unfold log_probability, bind, lift. rewrite (log_prior_inside theta Hin). simpl.
  destruct (log_likelihood_ic integrate theta times y n) as [[v | e] m]; simpl in *; congruence.
Qed.

(** C1. For every parameter vector (r, K, sigma, ic) with at least one
    component outside the open box (0,1) x (10,120) x (0.1,30) x (0.1,20) and
    every dataset, [log_prior] is [-inf] and [log_probability] returns
    [-inf] without evaluating the likelihood: the count of forward-model
    evaluations is left as it was, whatever the integrator would do. *)
Theorem log_probability_outside_box (theta times : array1) (y : array2) (n : nat) :
  outside_box strictly_between bounds_4 theta ->
  log_prior theta = Ok NInf /\
  log_probability integrate theta times y n = (Ok NInf, n).
Proof.
  intros Hout. pose proof (log_prior_outside theta Hout) as Hp.
  split; [exact Hp |]. now apply log_probability_short_circuit.
Qed.

(** C9. The box of the prior is open: when some component of a
    four-parameter vector equals one of its declared bounds, [log_prior] is
    [-inf], and so is [log_probability]. *)
Theorem log_prior_boundary (theta times : array1) (y : array2) (n : nat) :
  length theta = 4%nat ->
  on_boundary (lb bounds_4) (ub bounds_4) theta ->
  log_prior theta = Ok NInf /\
  log_probability integrate theta times y n = (Ok NInf, n).
Proof.
  intros Hlen Hb.
  assert (Hp : log_prior theta = Ok NInf).
  { apply log_prior_outside. split; [exact Hlen |].
    destruct (length_4 theta Hlen) as (a & b & c & d & ->).
    simpl in Hb |- *. intros (Ha & Hb' & Hc & Hd & _).
    destruct Hb as [-> | [-> | [-> | [-> | [-> | [-> | [-> | [-> | []]]]]]]]];
      simpl in *; lra. }
  split; [exact Hp |]. now apply log_probability_short_circuit.
Qed.


End Posterior.

(** ** The likelihoods *)

Lemma sum_column_of (f : npfloat -> npfloat) (l : array1) :
  sum (map2d f (column_of l)) = sum1 (map f l).
Proof.
  unfold sum, map2d, column_of, sum1.
  induction l as [| x l IH]; simpl; [reflexivity |]. now rewrite IH.
Qed.

Lemma sub2_column_of (a b : array1) :
  length a = length b ->
  sub2 (column_of a) (column_of b) = Ok (column_of (zip_with sub a b)).
Proof.
  intros Hlen. unfold sub2, broadcast, column_of.
  rewrite !length_map, Hlen, Nat.eqb_refl. simpl.
  revert b Hlen. induction a as [| x a IH]; intros [| z b] Hlen;
    simpl in *; try discriminate; [reflexivity |].
  injection Hlen as Hlen. now rewrite (IH b Hlen).
Qed.

Section LikelihoodFacts.

Variable integrate : integrator.

(** [log_likelihood] on a one-column dataset, when the integrator returns
    a one-column trajectory of the same length. *)
Lemma log_likelihood_column (cal_r cal_K cal_sigma d0 : npfloat)
    (times Dc Yc : array1) (n : nat) :
  length (d0 :: Dc) = length Yc ->
  integrate (scalar_rhs control_tumor) [d0] times [cal_r; cal_K] = Ok (column_of Yc) ->
  log_likelihood integrate [cal_r; cal_K; cal_sigma] times (column_of (d0 :: Dc)) n
  = (Ok (mul (Fin (-1 / 2))
           (sum1 (map (summand (variance_of cal_sigma)) (zip_with sub (d0 :: Dc) Yc)))),
     S n).
Proof.
  intros Hlen Hint.
  unfold log_likelihood, bind, lift, odeint, ret.
  cbn [unpack3 column_of map getitem nth_error].
  rewrite Hint.
  change ([d0] :: map (fun v => [v]) Dc) with (column_of (d0 :: Dc)).
  rewrite (sub2_column_of _ _ Hlen).
  change (fun e => add (add (log (mul (Fin 2) pi)) (log (variance_of cal_sigma)))
                       (div (square e) (variance_of cal_sigma)))
    with (summand (variance_of cal_sigma)).
  now rewrite sum_column_of.
Qed.

(** The same for [log_likelihood_ic]; the dataset may be empty here, since
    the initial state comes from [theta]. *)
Lemma log_likelihood_ic_column (cal_r cal_K cal_sigma cal_ic : npfloat)
    (times Dc Yc : array1) (n : nat) :
  length Dc = length Yc ->
  integrate (scalar_rhs control_tumor) [cal_ic] times [cal_r; cal_K] = Ok (column_of Yc) ->
  log_likelihood_ic integrate [cal_r; cal_K; cal_sigma; cal_ic] times (column_of Dc) n
  = (Ok (mul (Fin (-1 / 2))
           (sum1 (map (summand_ic (variance_of cal_sigma)) (zip_with sub Dc Yc)))),
     S n).
Proof.
  intros Hlen Hint.
  unfold log_likelihood_ic, bind, lift, odeint, ret.
  cbn [unpack4].
  rewrite Hint, (sub2_column_of _ _ Hlen).
  change (fun e => add (add (div (square e) (variance_of cal_sigma))
                            (log (mul (Fin 2) pi)))
                       (log (variance_of cal_sigma)))
    with (summand_ic (variance_of cal_sigma)).
  now rewrite sum_column_of.
Qed.

Lemma nll_unfold (theta times : array1) (y : array2) (n : nat) :
  nll integrate theta times y n =
  match log_likelihood integrate theta times y n with
  | (Ok v, m) => (Ok (neg v), m)
  | (Raise e, m) => (Raise e, m)
  end.
Proof. reflexivity. Qed.

Lemma nll_ic_unfold (theta times : array1) (y : array2) (n : nat) :
  nll_ic integrate theta times y n =
  match log_likelihood_ic integrate theta times y n with
  | (Ok v, m) => (Ok (neg v), m)
  | (Raise e, m) => (Raise e, m)
  end.
Proof. reflexivity. Qed.

End LikelihoodFacts.

(** *** Finite data, finite trajectory, sigma not zero *)

Lemma two_pi_pos : 0 < 2 * PI.
Proof. pose proof PI_RGT_0. lra. Qed.

Lemma square_nonzero_pos (sigma : R) : sigma <> 0 -> 0 < sigma * sigma.
Proof. intros H. nra. Qed.

Lemma summand_finite (sigma e : R) :
  sigma <> 0 ->
  summand (variance_of (Fin sigma)) (Fin e)
  = Fin (ln (2 * PI) + ln (sigma * sigma) + e * e / (sigma * sigma)).
Proof.
  intros Hs. pose proof (square_nonzero_pos sigma Hs) as Hv.
  unfold summand, variance_of, square, log, div, pi. simpl.
  now rewrite (Rsign_pos _ two_pi_pos), (Rsign_pos _ Hv).
Qed.

Lemma summand_ic_finite (sigma e : R) :
  sigma <> 0 ->
  summand_ic (variance_of (Fin sigma)) (Fin e)
  = Fin (ln (2 * PI) + ln (sigma * sigma) + e * e / (sigma * sigma)).
Proof.
  intros Hs. pose proof (square_nonzero_pos sigma Hs) as Hv.
  unfold summand_ic, variance_of, square, log, div, pi. simpl.
  rewrite (Rsign_pos _ two_pi_pos), (Rsign_pos _ Hv). simpl.
  f_equal. ring.
Qed.


(** *** Trajectories with special values *)


Lemma summand_gaussian_like (sigma : R) :
  sigma <> 0 -> gaussian_like (summand (variance_of (Fin sigma))).
Proof.
  intros Hs. pose proof (square_nonzero_pos sigma Hs) as Hv.
  repeat split.
  - intros e. eexists. now apply summand_finite.
  - unfold summand, variance_of, square, log, div, pi. simpl.
    now rewrite (Rsign_pos _ two_pi_pos), (Rsign_pos _ Hv).
  - unfold summand, variance_of, square, log, div, pi. simpl.
    now rewrite (Rsign_pos _ two_pi_pos), (Rsign_pos _ Hv).
  - unfold summand, variance_of, square, log, div, pi. simpl.
    now rewrite (Rsign_pos _ two_pi_pos), (Rsign_pos _ Hv).
Qed.

Lemma summand_ic_gaussian_like (sigma : R) :
  sigma <> 0 -> gaussian_like (summand_ic (variance_of (Fin sigma))).
Proof.
  intros Hs. pose proof (square_nonzero_pos sigma Hs) as Hv.
  repeat split.
  - intros e. eexists. now apply summand_ic_finite.
  - unfold summand_ic, variance_of, square, log, div, pi. simpl.
    now rewrite (Rsign_pos _ two_pi_pos), (Rsign_pos _ Hv).
  - unfold summand_ic, variance_of, square, log, div, pi. simpl.
    now rewrite (Rsign_pos _ two_pi_pos), (Rsign_pos _ Hv).
Qed.

(** The value of the sum by the kind of entries of the trajectory. *)
Lemma sum1_by_kind (term : npfloat -> npfloat) (D : list R) (Yc : array1) :
  gaussian_like term -> length D = length Yc ->
  let s := sum1 (map term (zip_with sub (map Fin D) Yc)) in
  (existsb isnan Yc = true -> s = NaN) /\
  (existsb isnan Yc = false -> forallb isfinite Yc = false -> s = PInf) /\
  (forallb isfinite Yc = true -> exists g, s = Fin g).
Proof.
  intros (Hfin & Hp & Hn & Hnan). revert Yc.
  induction D as [| d D IH]; intros [| y Yc] Hlen; simpl in Hlen; try discriminate.
  - simpl. repeat split; try discriminate. intros _. now exists 0.
  - injection Hlen as Hlen. specialize (IH Yc Hlen). cbv zeta in IH.
    destruct IH as (IH1 & IH2 & IH3).
    cbn [map zip_with sum1 fold_right existsb forallb].
    fold (sum1 (map term (zip_with sub (map Fin D) Yc))).
    set (rest := sum1 (map term (zip_with sub (map Fin D) Yc))) in *.
    destruct y as [v | | |]; cbn [isnan isfinite orb andb sub neg add].
    + destruct (Hfin (d + - v)) as [g Hg]. rewrite Hg.
      repeat split.
      * intros H. now rewrite (IH1 H).
      * intros H1 H2. now rewrite (IH2 H1 H2).
      * intros H. destruct (IH3 H) as [g' ->]. now eexists.
    + rewrite Hn. repeat split; try discriminate.
      * intros H. now rewrite (IH1 H).
      * intros H1 _. destruct (forallb isfinite Yc) eqn:E.
        -- destruct (IH3 eq_refl) as [g' ->]. reflexivity.
        -- now rewrite (IH2 H1 eq_refl).
    + rewrite Hp. repeat split; try discriminate.
      * intros H. now rewrite (IH1 H).
      * intros H1 _. destruct (forallb isfinite Yc) eqn:E.
        -- destruct (IH3 eq_refl) as [g' ->]. reflexivity.
        -- now rewrite (IH2 H1 eq_refl).
    + rewrite Hnan. repeat split; discriminate.
Qed.

Lemma half_neg_pinf : mul (Fin (-1 / 2)) PInf = NInf.
Proof.
  simpl. assert (H : -1 / 2 < 0) by lra. now rewrite (Rsign_neg _ H).
Qed.

Lemma scaled_sum_by_kind (term : npfloat -> npfloat) (D : list R) (Yc : array1) :
  gaussian_like term -> length D = length Yc ->
  Exists (fun v => isfinite v = false) Yc ->
  mul (Fin (-1 / 2)) (sum1 (map term (zip_with sub (map Fin D) Yc)))
  = if existsb isnan Yc then NaN else NInf.
Proof.
  intros Hg Hlen Hex.
  destruct (sum1_by_kind term D Yc Hg Hlen) as (H1 & H2 & _).
  destruct (existsb isnan Yc) eqn:E.
  - now rewrite (H1 eq_refl).
  - rewrite H2; [apply half_neg_pinf | reflexivity |].
    apply not_true_is_false. intros Hall. rewrite forallb_forall in Hall.
    apply Exists_exists in Hex. destruct Hex as (v & Hin & Hv).
    rewrite (Hall v Hin) in Hv. discriminate.
Qed.

(** ** Concrete runs *)


Lemma euler_two_points :
  euler_odeint (scalar_rhs control_tumor) [Fin 1] [Fin 0; Fin 1] [Fin (1 / 4); Fin 60]
  = Ok (as_column [1; euler_y1]).
Proof.
  unfold euler_odeint, euler_steps, scalar_rhs, control_tumor, rbind, getitem. simpl.
  assert (H : 0 < 60) by lra. now rewrite (Rsign_pos _ H).
Qed.

Lemma euler_one_point (y0 theta : array1) (t0 : npfloat) (func : rhs) :
  euler_odeint func y0 [t0] theta = Ok [y0].
Proof. reflexivity. Qed.


(** With [r = 0] and [K = 0] the right-hand side is [0 * (1 - inf) = nan],
    and the step after the initial state is [nan]. *)
Lemma euler_nan_trajectory :
  euler_odeint (scalar_rhs control_tumor) [Fin 1] [Fin 0; Fin 1] [Fin 0; Fin 0]
  = Ok (column_of [Fin 1; NaN]).
Proof.
  unfold euler_odeint, euler_steps, scalar_rhs, control_tumor, rbind, getitem. simpl.
  assert (H : 0 < 1) by lra. rewrite Rsign_zero, (Rsign_pos _ H). simpl.
  replace (0 * 1) with 0 by ring. now rewrite Rsign_zero.
Qed.

(** With [r = 1] and [K = 0] the right-hand side is [1 * (1 - inf) = -inf],
    and the step after the initial state is [-inf]. *)
Lemma euler_inf_trajectory :
  euler_odeint (scalar_rhs control_tumor) [Fin 1] [Fin 0; Fin 1] [Fin 1; Fin 0]
  = Ok (column_of [Fin 1; NInf]).
Proof.
  unfold euler_odeint, euler_steps, scalar_rhs, control_tumor, rbind, getitem. simpl.
  assert (H : 0 < 1) by lra. rewrite Rsign_zero, (Rsign_pos _ H). simpl.
  assert (H1 : 0 < 1 * 1) by lra. rewrite (Rsign_pos _ H1). simpl.
  assert (H2 : 0 < 1 + - 0) by lra. now rewrite (Rsign_pos _ H2).
Qed.

(** ** Claims about the likelihoods *)



(** A [nan] in the trajectory reaches the result through every operation. *)
Lemma add_nan_r (a : npfloat) : add a NaN = NaN.
Proof. now destruct a. Qed.

Lemma sub_nan_r (d : npfloat) : sub d NaN = NaN.
Proof. unfold sub. simpl. apply add_nan_r. Qed.

Lemma summand_at_nan (variance d : npfloat) :
  summand variance (sub d NaN) = NaN /\ summand_ic variance (sub d NaN) = NaN.
Proof.
  rewrite sub_nan_r. unfold summand, summand_ic, square. simpl. split.
  - apply add_nan_r.
  - reflexivity.
Qed.

Lemma sum1_has_nan (l : array1) : In NaN l -> sum1 l = NaN.
Proof.
  unfold sum1. induction l as [| x l IH]; simpl; [tauto |].
  intros [-> | H]; [reflexivity |]. rewrite (IH H). apply add_nan_r.
Qed.

Lemma nan_term (term : npfloat -> npfloat) (Dc Yc : array1) :
  (forall d, term (sub d NaN) = NaN) ->
  length Dc = length Yc -> existsb isnan Yc = true ->
  In NaN (map term (zip_with sub Dc Yc)).
Proof.
  intros Hterm. revert Yc.
  induction Dc as [| d Dc IH]; intros [| y Yc] Hlen Hnan; simpl in *;
    try discriminate.
  injection Hlen as Hlen. destruct y as [v | | |]; simpl in Hnan.
  - right. now apply IH.
  - right. now apply IH.
  - right. now apply IH.
  - left. apply Hterm.
Qed.


Section LikelihoodClaims.

Variable integrate : integrator.



(** C4 (as amended). When the integrator returns, without raising, a
    trajectory of the dataset's shape with a non-finite entry, the
    likelihoods return normally and nothing is mapped to -inf on purpose.
    If an entry is [nan], both likelihoods and both objectives return [nan],
    whatever sigma and the data.  If no entry is [nan] (so some entry is
    infinite), the data are finite and sigma lies within its bounds
    [0.1, 30], the likelihoods return -inf and the objectives +inf. *)
Theorem likelihood_nonfinite_trajectory (cal_r cal_K : npfloat)
    (times : array1) (n : nat) :
  (forall (cal_sigma : npfloat) (Dc Yc : array1),
     length Dc = length Yc -> existsb isnan Yc = true ->
     (forall d0 D', Dc = d0 :: D' ->
        integrate (scalar_rhs control_tumor) [d0] times [cal_r; cal_K]
          = Ok (column_of Yc) ->
        fst (log_likelihood integrate [cal_r; cal_K; cal_sigma] times (column_of Dc) n)
          = Ok NaN /\
        fst (nll integrate [cal_r; cal_K; cal_sigma] times (column_of Dc) n)
          = Ok NaN) /\
     (forall cal_ic,
        integrate (scalar_rhs control_tumor) [cal_ic] times [cal_r; cal_K]
          = Ok (column_of Yc) ->
        fst (log_likelihood_ic integrate [cal_r; cal_K; cal_sigma; cal_ic] times
               (column_of Dc) n) = Ok NaN /\
        fst (nll_ic integrate [cal_r; cal_K; cal_sigma; cal_ic] times
               (column_of Dc) n) = Ok NaN)) /\
  (forall (sigma : R) (D : list R) (Yc : array1),
     1 / 10 <= sigma <= 30 ->
     length D = length Yc -> existsb isnan Yc = false ->
     Exists (fun v => isfinite v = false) Yc ->
     (forall d0 D', D = d0 :: D' ->
        integrate (scalar_rhs control_tumor) [Fin d0] times [cal_r; cal_K]
          = Ok (column_of Yc) ->
        fst (log_likelihood integrate [cal_r; cal_K; Fin sigma] times (as_column D) n)
          = Ok NInf /\
        fst (nll integrate [cal_r; cal_K; Fin sigma] times (as_column D) n)
          = Ok PInf) /\
     (forall cal_ic,
        integrate (scalar_rhs control_tumor) [cal_ic] times [cal_r; cal_K]
          = Ok (column_of Yc) ->
        fst (log_likelihood_ic integrate [cal_r; cal_K; Fin sigma; cal_ic] times
               (as_column D) n) = Ok NInf /\
        fst (nll_ic integrate [cal_r; cal_K; Fin sigma; cal_ic] times
               (as_column D) n) = Ok PInf)).
Proof.
  split.
  - intros cal_sigma Dc Yc Hlen Hnan. split.
    + intros d0 D' -> Hint. rewrite nll_unfold.
      rewrite (log_likelihood_column integrate _ _ _ _ _ _ Yc n Hlen Hint).
      rewrite sum1_has_nan; [split; reflexivity |].
      apply nan_term; trivial. intros d. apply summand_at_nan.
    + intros cal_ic Hint. rewrite nll_ic_unfold.
      rewrite (log_likelihood_ic_column integrate _ _ _ _ _ _ Yc n Hlen Hint).
      rewrite sum1_has_nan; [split; reflexivity |].
      apply nan_term; trivial. intros d. apply summand_at_nan.
  - intros sigma D Yc Hs Hlen Hnan Hex. assert (Hs0 : sigma <> 0) by lra. split.
    + intros d0 D' -> Hint. rewrite nll_unfold. unfold as_column in *. cbn [map] in *.
      rewrite (log_likelihood_column integrate _ _ _ _ _ _ Yc n); trivial.
      * change (Fin d0 :: map Fin D') with (map Fin (d0 :: D')).
        rewrite (scaled_sum_by_kind _ (d0 :: D') Yc); trivial.
        -- rewrite Hnan. split; reflexivity.
        -- now apply summand_gaussian_like.
      * simpl. rewrite length_map. exact Hlen.
    + intros cal_ic Hint. rewrite nll_ic_unfold. unfold as_column in *.
      rewrite (log_likelihood_ic_column integrate _ _ _ _ _ _ Yc n); trivial.
      * rewrite (scaled_sum_by_kind _ D Yc); trivial.
        -- rewrite Hnan. split; reflexivity.
        -- now apply summand_ic_gaussian_like.
      * rewrite length_map. exact Hlen.
Qed.

End LikelihoodClaims.



(** C4 as stated fails: with [r = 0], [K = 0] the trajectory has a [nan]
    entry and [log_likelihood] returns [nan], not [-inf]. *)
Lemma likelihood_nan_counterexample :
  euler_odeint (scalar_rhs control_tumor) [Fin 1] [Fin 0; Fin 1] [Fin 0; Fin 0]
    = Ok (column_of [Fin 1; NaN]) /\
  fst (log_likelihood euler_odeint [Fin 0; Fin 0; Fin 1] [Fin 0; Fin 1]
         (as_column [1; 1]) 0%nat) = Ok NaN /\
  fst (log_likelihood euler_odeint [Fin 0; Fin 0; Fin 1] [Fin 0; Fin 1]
         (as_column [1; 1]) 0%nat) <> Ok NInf.
Proof.
  assert (E : log_likelihood euler_odeint [Fin 0; Fin 0; Fin 1] [Fin 0; Fin 1]
                (as_column [1; 1]) 0%nat = (Ok NaN, 1%nat)).
  { unfold as_column. cbn [map].
    rewrite (log_likelihood_column euler_odeint _ _ _ _ _ _ [Fin 1; NaN] 0%nat);
      [| reflexivity | exact euler_nan_trajectory].
    change [Fin 1; Fin 1] with (map Fin [1; 1]).
    rewrite (scaled_sum_by_kind _ [1; 1] [Fin 1; NaN]); [reflexivity | | reflexivity |].
    - apply summand_gaussian_like. lra.
    - right. left. reflexivity. }
  split; [exact euler_nan_trajectory |]. rewrite E. split; [reflexivity | discriminate].
Qed.



Lemma likelihood_nonfinite_trajectory_witness :
  (fst (log_likelihood euler_odeint [Fin 0; Fin 0; Fin 1] [Fin 0; Fin 1]
          (as_column [1; 1]) 0%nat) = Ok NaN /\
   fst (log_likelihood_ic euler_odeint [Fin 0; Fin 0; Fin 1; Fin 1] [Fin 0; Fin 1]
          (as_column [1; 1]) 0%nat) = Ok NaN) /\
  (fst (log_likelihood euler_odeint [Fin 1; Fin 0; Fin 1] [Fin 0; Fin 1]
          (as_column [1; 1]) 0%nat) = Ok NInf /\
   fst (log_likelihood_ic euler_odeint [Fin 1; Fin 0; Fin 1; Fin 1] [Fin 0; Fin 1]
          (as_column [1; 1]) 0%nat) = Ok NInf).
Proof.
  split.
  - destruct (proj1 (likelihood_nonfinite_trajectory euler_odeint (Fin 0) (Fin 0)
                       [Fin 0; Fin 1] 0%nat)
                (Fin 1) [Fin 1; Fin 1] [Fin 1; NaN] eq_refl eq_refl) as [H1 H2].
    split.
    + exact (proj1 (H1 (Fin 1) [Fin 1] eq_refl euler_nan_trajectory)).
    + exact (proj1 (H2 (Fin 1) euler_nan_trajectory)).
  - assert (Hs : 1 / 10 <= 1 <= 30) by lra.
    assert (Hex : Exists (fun v => isfinite v = false) [Fin 1; NInf]).
    { right. left. reflexivity. }
    destruct (proj2 (likelihood_nonfinite_trajectory euler_odeint (Fin 1) (Fin 0)
                       [Fin 0; Fin 1] 0%nat)
                1 [1; 1] [Fin 1; NInf] Hs eq_refl eq_refl Hex) as [H1 H2].
    split.
    + exact (proj1 (H1 1 [1] eq_refl euler_inf_trajectory)).
    + exact (proj1 (H2 (Fin 1) euler_inf_trajectory)).
Defined.

Lemma log_probability_outside_box_witness :
  log_prior [Fin 2; Fin 60; Fin 1; Fin 1] = Ok NInf /\
  log_probability euler_odeint [Fin 2; Fin 60; Fin 1; Fin 1] times (as_column [1]) 0%nat
  = (Ok NInf, 0%nat).
Proof.
  apply (log_probability_outside_box euler_odeint).
  split; [reflexivity |]. simpl. intros [[_ H] _]. lra.
Defined.

Lemma log_prior_boundary_witness :
  log_prior [Fin 0; Fin 60; Fin 1; Fin 1] = Ok NInf /\
  log_probability euler_odeint [Fin 0; Fin 60; Fin 1; Fin 1] times (as_column [1]) 0%nat
  = (Ok NInf, 0%nat).
Proof.
  apply (log_prior_boundary euler_odeint); [reflexivity |].
  simpl. left. reflexivity.
Defined.


(** ** The exercise right-hand side *)



(** ** Synthetic data *)


Lemma finite_not_nan (v : npfloat) : finite v -> not_nan v.
Proof. destruct v; unfold finite, not_nan; simpl; congruence. Qed.

(** Clipping makes every entry that is not [nan] non-negative. *)
Lemma clip_entry_nonnegative (e : npfloat) :
  not_nan e -> nonnegative (if ltb e (Fin 0) then Fin 0 else e).
Proof.
  unfold not_nan, nonnegative. destruct e as [v | | |]; simpl; intros H;
    try discriminate; try reflexivity.
  - destruct (Rltb v 0) eqn:E; simpl; apply Rleb_true.
    + lra.
    + apply Rltb_false in E. lra.
  - apply Rleb_true. lra.
Qed.

Lemma clip_negative_nonnegative (a : array2) :
  all_entries not_nan a -> all_entries nonnegative (clip_negative a).
Proof.
  unfold all_entries, clip_negative, map2d. intros H.
  apply Forall_map. eapply Forall_impl; [| exact H].
  intros row Hrow. apply Forall_map. eapply Forall_impl; [| exact Hrow].
  intros e. apply clip_entry_nonnegative.
Qed.

(** Clipping does not remove a [nan]. *)
Lemma clip_negative_keeps_nan : clip_negative [[NaN]] = [[NaN]].
Proof. reflexivity. Qed.

Lemma getitem_Forall {A} (P : A -> Prop) (l : list A) (k : nat) (x : A) :
  Forall P l -> getitem l k = Ok x -> P x.
Proof.
  unfold getitem. intros H E. destruct (nth_error l k) as [a |] eqn:En; [| discriminate].
  injection E as <-. rewrite Forall_forall in H. apply H. eapply nth_error_In; eauto.
Qed.

Lemma column_Forall (P : npfloat -> Prop) (k : nat) (a : array2) (c : array1) :
  all_entries P a -> column k a = Ok c -> Forall P c.
Proof.
  unfold column, all_entries. revert c.
  induction a as [| row a IH]; intros c H E; simpl in E.
  - injection E as <-. constructor.
  - inversion H as [| ? ? Hrow Ha]; subst.
    destruct (getitem row k) as [x |] eqn:Ex; simpl in E; [| discriminate].
    destruct (sequence (map (fun row0 => getitem row0 k) a)) as [c' |] eqn:Ec;
      simpl in E; [| discriminate].
    injection E as <-. constructor.
    + eapply getitem_Forall; eauto.
    + now apply IH.
Qed.

Lemma column_defined (k : nat) (a : array2) :
  Forall (fun row => (k < length row)%nat) a -> exists c, column k a = Ok c.
Proof.
  unfold column. induction a as [| row a IH]; intros H; simpl.
  - now eexists.
  - inversion H as [| ? ? Hrow Ha]; subst.
    destruct (IH Ha) as [c Hc]. rewrite Hc.
    unfold getitem. destruct (nth_error row k) as [x |] eqn:E.
    + simpl. now eexists.
    + apply nth_error_None in E. lia.
Qed.

Lemma set_item_Forall {A} (P : A -> Prop) (k : nat) (x : A) (l : list A) :
  P x -> Forall P l -> Forall P (set_item k x l).
Proof.
  intros Hx. revert k. induction l as [| a l IH]; intros k H.
  - destruct k; constructor.
  - inversion H; subst. destruct k; simpl; constructor; auto.
Qed.

Lemma set_column_entries (P : npfloat -> Prop) (k : nat) (v : array1) (a : array2) :
  Forall P v -> all_entries P a -> all_entries P (set_column k v a).
Proof.
  unfold set_column, all_entries. revert v.
  induction a as [| row a IH]; intros [| x v] Hv Ha; simpl; try constructor.
  - inversion Hv; inversion Ha; subst. now apply set_item_Forall.
  - inversion Hv; inversion Ha; subst. now apply IH.
Qed.


Lemma set_item_length {A} (k : nat) (x : A) (l : list A) :
  length (set_item k x l) = length l.
Proof.
  revert k. induction l as [| a l IH]; intros [| k]; simpl; auto.
Qed.

Lemma set_column_shape (k : nat) (v : array1) (a : array2) :
  length v = length a -> shape (set_column k v a) = shape a.
Proof.
  unfold shape, set_column. revert v.
  induction a as [| row a IH]; intros [| x v] H; simpl in *; try discriminate; auto.
  injection H as H. now rewrite set_item_length, IH.
Qed.

Lemma column_length (k : nat) (a : array2) (c : array1) :
  column k a = Ok c -> length c = length a.
Proof.
  unfold column. revert c. induction a as [| row a IH]; intros c E; simpl in E.
  - now injection E as <-.
  - destruct (getitem row k); simpl in E; [| discriminate].
    destruct (sequence (map (fun row0 => getitem row0 k) a)) as [c' |];
      simpl in E; [| discriminate].
    injection E as <-. simpl. now rewrite (IH c' eq_refl).
Qed.

Lemma clip_negative_shape (a : array2) : shape (clip_negative a) = shape a.
Proof.
  unfold shape, clip_negative, map2d. rewrite map_map.
  apply map_ext. intros row. apply length_map.
Qed.

Section GeneratorFacts.

Variable G : RandomSource.

(** A draw around a location that is not [nan], with a finite scale, is
    not [nan]. *)
Lemma normal_not_nan (loc : npfloat) (s : R) (st : rng_state G) :
  not_nan loc -> not_nan (fst (normal G loc (Fin s) st)).
Proof.
  unfold not_nan, Calibration.normal. destruct (standard_normal G st) as [z st'].
  destruct loc; simpl; congruence.
Qed.

Lemma normal1_spec (locs : array1) (s : R) (st : rng_state G) :
  Forall not_nan locs ->
  Forall not_nan (fst (normal1 G locs (Fin s) st)) /\
  length (fst (normal1 G locs (Fin s) st)) = length locs.
Proof.
  revert st. induction locs as [| l locs IH]; intros st H; simpl.
  - split; [constructor | reflexivity].
  - inversion H as [| ? ? Hl Hlocs]; subst.
    pose proof (normal_not_nan l s st Hl) as Hx.
    destruct (normal G l (Fin s) st) as [x st1].
    specialize (IH st1 Hlocs).
    destruct (normal1 G locs (Fin s) st1) as [xs st2]. simpl in *.
    destruct IH as [IH1 IH2]. split; [constructor; assumption | now rewrite IH2].
Qed.

Lemma normal2_spec (locs : array2) (s : R) (st : rng_state G) :
  all_entries not_nan locs ->
  all_entries not_nan (fst (normal2 G locs (Fin s) st)) /\
  shape (fst (normal2 G locs (Fin s) st)) = shape locs.
Proof.
  unfold all_entries, shape. revert st.
  induction locs as [| row rows IH]; intros st H; simpl.
  - split; [constructor | reflexivity].
  - inversion H as [| ? ? Hrow Hrows]; subst.
    pose proof (normal1_spec row s st Hrow) as [Hx Hlen].
    destruct (normal1 G row (Fin s) st) as [x st1].
    specialize (IH st1 Hrows).
    destruct (normal2 G rows (Fin s) st1) as [xs st2]. simpl in *.
    destruct IH as [IH1 IH2]. split; [constructor; assumption | now rewrite Hlen, IH2].
Qed.

(** The perturbation cell of the single-compartment scenario. *)
Lemma perturb_nonnegative (y : array2) (st : rng_state G) :
  all_entries not_nan y ->
  all_entries nonnegative (fst (perturb G y st)) /\
  shape (fst (perturb G y st)) = shape y.
Proof.
  intros H. unfold Calibration.perturb, np_random_seed, true_sigma.
  pose proof (normal2_spec y (36 / 10) (seed_state G 2021) H) as [Hn Hs].
  destruct (normal2 G y (Fin (36 / 10)) (seed_state G 2021)) as [yobs st']. simpl in *.
  split.
  - now apply clip_negative_nonnegative.
  - now rewrite clip_negative_shape.
Qed.

(** The perturbation cell of the exercise, on a trajectory with two
    columns. *)
Lemma perturb_exercise_nonnegative (y : array2) (st : rng_state G) :
  all_entries not_nan y ->
  Forall (fun row => length row = 2%nat) y ->
  exists yobs,
    fst (perturb_exercise G y st) = Ok yobs /\
    all_entries nonnegative yobs /\ shape yobs = shape y.
Proof.
  intros Hy Hw. unfold Calibration.perturb_exercise, np_random_seed.
  destruct (column_defined 0 y) as [c0 Hc0].
  { eapply Forall_impl; [| exact Hw]. simpl. intros row ->. lia. }
  destruct (column_defined 1 y) as [c1 Hc1].
  { eapply Forall_impl; [| exact Hw]. simpl. intros row ->. lia. }
  rewrite Hc0, Hc1. unfold Exercise.true_sigmaT, Exercise.true_sigmaD.
  pose proof (normal1_spec c0 (36 / 10) (seed_state G 2021)
                (column_Forall _ _ _ _ Hy Hc0)) as [Hn0 Hl0].
  destruct (normal1 G c0 (Fin (36 / 10)) (seed_state G 2021)) as [n0 st0].
  pose proof (normal1_spec c1 (2 / 10) st0 (column_Forall _ _ _ _ Hy Hc1)) as [Hn1 Hl1].
  destruct (normal1 G c1 (Fin (2 / 10)) st0) as [n1 st1]. simpl in *.
  eexists. split; [reflexivity |]. split.
  - apply clip_negative_nonnegative.
    apply set_column_entries; [exact Hn1 |].
    apply set_column_entries; [exact Hn0 | exact Hy].
  - rewrite clip_negative_shape.
    assert (E0 : shape (set_column 0 n0 y) = shape y).
    { apply set_column_shape. rewrite Hl0. now apply column_length in Hc0. }
    rewrite set_column_shape; [exact E0 |].
    rewrite Hl1. apply column_length in Hc1. rewrite Hc1.
    apply (f_equal (@length nat)) in E0. unfold shape in E0.
    now rewrite !length_map in E0.
Qed.

(** C5. Every entry of the observed dataset produced by the generator is
    greater than or equal to zero, for every compartment and every time
    point, in the single-compartment and in the two-compartment scenario:
    when the integrator returns a trajectory without [nan] (with two columns
    in the exercise), the generator returns observations of the shape of the
    trajectory whose entries are all non-negative. *)
Theorem generated_observations_nonnegative (integrate : integrator) (st : rng_state G) :
  (forall y,
     integrate (scalar_rhs control_tumor) [true_ic] times [true_r; true_K] = Ok y ->
     all_entries not_nan y ->
     exists yobs,
       fst (generate G integrate st) = Ok yobs /\
       all_entries nonnegative yobs /\ shape yobs = shape y) /\
  (forall y,
     integrate treated_tumor [Exercise.tumor_ic; Exercise.drug_ic] Exercise.times
       [Exercise.r; Exercise.K; Exercise.f; Exercise.g] = Ok y ->
     all_entries not_nan y ->
     Forall (fun row => length row = 2%nat) y ->
     exists yobs,
       fst (generate_exercise G integrate st) = Ok yobs /\
       all_entries nonnegative yobs /\ shape yobs = shape y).
Proof.
  split.
  - intros y Hint Hy. unfold Calibration.generate. rewrite Hint.
    pose proof (perturb_nonnegative y st Hy) as Hp.
    destruct (perturb G y st) as [yobs st']. simpl in *.
    exists yobs. split; [reflexivity | exact Hp].
  - intros y Hint Hy Hw. unfold Calibration.generate_exercise. rewrite Hint.
    now apply perturb_exercise_nonnegative.
Qed.

(** C6. Data generation is deterministic: two runs of the generator, from
    whatever states the global random generator was left in, reseed with
    2021 and produce the same observations (and leave the same generator
    state behind the perturbation cell). *)
Theorem generation_deterministic (integrate : integrator) (st1 st2 : rng_state G) :
  (forall y, perturb G y st1 = perturb G y st2) /\
  (forall y, perturb_exercise G y st1 = perturb_exercise G y st2) /\
  fst (generate G integrate st1) = fst (generate G integrate st2) /\
  fst (generate_exercise G integrate st1) = fst (generate_exercise G integrate st2).
Proof.
  assert (H1 : forall y, perturb G y st1 = perturb G y st2) by reflexivity.
  assert (H2 : forall y, perturb_exercise G y st1 = perturb_exercise G y st2)
    by reflexivity.
  repeat split; trivial.
  - unfold Calibration.generate.
    destruct (integrate _ _ _ _) as [y | e]; [| reflexivity].
    now rewrite (H1 y).
  - unfold Calibration.generate_exercise.
    destruct (integrate _ _ _ _) as [y | e]; [| reflexivity].
    now rewrite (H2 y).
Qed.

End GeneratorFacts.

(** ** The Euler integrator on the two models *)

Lemma euler_update_finite (k : nat) (c : npfloat) (y dy : array1) :
  finite c -> finite_vec k y -> finite_vec k dy ->
  finite_vec k (zip_with (fun yi di => add yi (mul c di)) y dy).
Proof.
  intros Hc [Hly Hy] [Hld Hd]. subst k. revert dy Hld Hd.
  induction Hy as [| a y Ha Hy IH]; intros [| d dy] Hld Hd;
    simpl in *; try discriminate.
  - split; [reflexivity | constructor].
  - injection Hld as Hld. inversion Hd as [| ? ? Hd1 Hd2]; subst.
    destruct (IH dy Hld Hd2) as [IH1 IH2]. split; [simpl; f_equal; exact IH1 |].
    constructor; [| exact IH2].
    destruct c, a, d; unfold finite in *; simpl in *; congruence.
Qed.

Lemma euler_steps_finite (f : array1 -> npfloat -> result array1) (k : nat) :
  (forall y t, finite_vec k y -> finite t ->
               exists dy, f y t = Ok dy /\ finite_vec k dy) ->
  forall ts y t, Forall finite ts -> finite t -> finite_vec k y ->
  exists traj, euler_steps f y t ts = Ok traj /\ Forall (finite_vec k) traj.
Proof.
  intros Hf ts. induction ts as [| t' ts IH]; intros y t Hts Ht Hy; simpl.
  - eexists. split; [reflexivity | constructor].
  - inversion Hts as [| ? ? Ht' Hts']; subst.
    destruct (Hf y t Hy Ht) as (dy & -> & Hdy). simpl.
    assert (Hc : finite (sub t' t)).
    { destruct t', t; unfold finite in *; simpl in *; congruence. }
    pose proof (euler_update_finite k _ y dy Hc Hy Hdy) as Hy'.
    destruct (IH _ t' Hts' Ht' Hy') as (rest & -> & Hrest). simpl.
    eexists. split; [reflexivity |]. now constructor.
Qed.

Lemma euler_odeint_finite (func : rhs) (theta : array1) (k : nat)
    (t0 : npfloat) (ts y0 : array1) :
  (forall y t, finite_vec k y -> finite t ->
               exists dy, func y t theta = Ok dy /\ finite_vec k dy) ->
  Forall finite (t0 :: ts) -> finite_vec k y0 ->
  exists traj, euler_odeint func y0 (t0 :: ts) theta = Ok traj /\
               Forall (finite_vec k) traj.
Proof.
  intros Hf Hts Hy0. inversion Hts as [| ? ? Ht0 Hts']; subst.
  unfold euler_odeint.
  destruct (euler_steps_finite (fun y s => func y s theta) k Hf ts y0 t0 Hts' Ht0 Hy0)
    as (rest & -> & Hrest).
  simpl. eexists. split; [reflexivity |]. now constructor.
Qed.

Lemma control_tumor_finite (r K : R) (y : array1) (t : npfloat) :
  K <> 0 -> finite_vec 1 y -> finite t ->
  exists dy, scalar_rhs control_tumor y t [Fin r; Fin K] = Ok dy /\ finite_vec 1 dy.
Proof.
  intros HK [Hl Hy] _.
  destruct y as [| a [| b y]]; simpl in Hl; try discriminate.
  inversion Hy as [| ? ? Ha _]; subst.
  destruct a as [N | | |]; try discriminate Ha.
  unfold scalar_rhs, control_tumor, rbind, getitem. cbn [nth_error].
  unfold div. pose proof (Rsign_nonzero K HK) as HsK.
  destruct (Rsign K); try congruence; simpl; eexists;
    (split; [reflexivity | split; [reflexivity | repeat constructor]]).
Qed.

Lemma treated_tumor_finite (r K f g : R) (y : array1) (t : npfloat) :
  K <> 0 -> finite_vec 2 y -> finite t ->
  exists dy, treated_tumor y t [Fin r; Fin K; Fin f; Fin g] = Ok dy /\ finite_vec 2 dy.
Proof.
  intros HK [Hl Hy] _.
  destruct y as [| a [| b [| c y]]]; simpl in Hl; try discriminate.
  inversion Hy as [| ? ? Ha Hy']; subst. inversion Hy' as [| ? ? Hb _]; subst.
  destruct a as [N | | |]; try discriminate Ha.
  destruct b as [C | | |]; try discriminate Hb.
  unfold treated_tumor, rbind, getitem. cbn [nth_error].
  unfold div. pose proof (Rsign_nonzero K HK) as HsK.
  destruct (Rsign K); try congruence; simpl; eexists;
    (split; [reflexivity | split; [reflexivity | repeat constructor]]).
Qed.

Lemma finite_vec_entries (k : nat) (a : array2) :
  Forall (finite_vec k) a ->
  all_entries not_nan a /\ Forall (fun row => length row = k) a.
Proof.
  intros H. split.
  - eapply Forall_impl; [| exact H]. intros row [_ Hrow].
    eapply Forall_impl; [| exact Hrow]. apply finite_not_nan.
  - eapply Forall_impl; [| exact H]. now intros row [Hl _].
Qed.

Lemma grid_finite (f : nat -> R) (l : list nat) :
  Forall finite (map (fun k => Fin (f k)) l).
Proof. apply Forall_map, Forall_forall. intros k _. reflexivity. Qed.

(** The Euler trajectories of the two scenarios are finite. *)
Lemma euler_scenario_finite :
  exists y, euler_odeint (scalar_rhs control_tumor) [true_ic] times [true_r; true_K] = Ok y
            /\ Forall (finite_vec 1) y.
Proof.
  apply euler_odeint_finite.
  - intros y t. apply control_tumor_finite. lra.
  - apply (grid_finite INR (seq 0 50)).
  - split; [reflexivity | repeat constructor].
Qed.

Lemma euler_exercise_finite :
  exists y, euler_odeint treated_tumor [Exercise.tumor_ic; Exercise.drug_ic]
              Exercise.times [Exercise.r; Exercise.K; Exercise.f; Exercise.g] = Ok y
            /\ Forall (finite_vec 2) y.
Proof.
  apply euler_odeint_finite.
  - intros y t. apply treated_tumor_finite. lra.
  - apply (grid_finite (fun k => INR k / 2) (seq 0 100)).
  - split; [reflexivity | repeat constructor].
Qed.

Lemma generated_observations_nonnegative_witness :
  (exists y yobs,
     euler_odeint (scalar_rhs control_tumor) [true_ic] times [true_r; true_K] = Ok y /\
     fst (generate lcg euler_odeint 0%Z) = Ok yobs /\
     all_entries nonnegative yobs /\ shape yobs = shape y) /\
  (exists y yobs,
     euler_odeint treated_tumor [Exercise.tumor_ic; Exercise.drug_ic]
       Exercise.times [Exercise.r; Exercise.K; Exercise.f; Exercise.g] = Ok y /\
     fst (generate_exercise lcg euler_odeint 0%Z) = Ok yobs /\
     all_entries nonnegative yobs /\ shape yobs = shape y).
Proof.
  destruct (generated_observations_nonnegative lcg euler_odeint 0%Z) as [H1 H2].
  split.
  - destruct euler_scenario_finite as (y & Hy & Hfin).
    destruct (finite_vec_entries 1 y Hfin) as [Hnan _].
    destruct (H1 y Hy Hnan) as (yobs & Hobs).
    exists y, yobs. split; [exact Hy | exact Hobs].
  - destruct euler_exercise_finite as (y & Hy & Hfin).
    destruct (finite_vec_entries 2 y Hfin) as [Hnan Hw].
    destruct (H2 y Hy Hnan Hw) as (yobs & Hobs).
    exists y, yobs. split; [exact Hy | exact Hobs].
Defined.

(** ** The logistic forward model *)

Lemma derivable_pt_lim_affine (a b x : R) :
  derivable_pt_lim (fun t => - (a * (t - b))) x (- a).
Proof.
  intros eps Heps. exists (mkposreal 1 Rlt_0_1). intros h Hh _.
  replace ((- (a * (x + h - b)) - - (a * (x - b))) / h - - a) with 0
    by (field; exact Hh).
  rewrite Rabs_R0. exact Heps.
Qed.

Lemma derivable_pt_lim_decay (a b x : R) :
  derivable_pt_lim (fun t => exp (- (a * (t - b)))) x (exp (- (a * (x - b))) * - a).
Proof.
  apply (derivable_pt_lim_comp (fun t => - (a * (t - b))) exp).
  - apply derivable_pt_lim_affine.
  - apply derivable_pt_lim_exp.
Qed.

Lemma derivable_pt_lim_denominator (r K t0 y0 x : R) :
  derivable_pt_lim (logistic_denominator r K t0 y0) x
    ((K - y0) * (exp (- (r * (x - t0))) * - r)).
Proof.
  unfold logistic_denominator.
  apply (derivable_pt_lim_ext
           (plus_fct (fct_cte y0)
              (mult_real_fct (K - y0) (fun t => exp (- (r * (t - t0))))))).
  - intros z. reflexivity.
  - replace ((K - y0) * (exp (- (r * (x - t0))) * - r))
      with (0 + (K - y0) * (exp (- (r * (x - t0))) * - r)) by ring.
    apply derivable_pt_lim_plus.
    + apply derivable_pt_lim_const.
    + apply derivable_pt_lim_scal. apply derivable_pt_lim_decay.
Qed.

Section Logistic.

Variables r K t0 y0 : R.
Hypothesis r_pos : 0 < r.
Hypothesis K_pos : 0 < K.
Hypothesis y0_range : 0 < y0 < K.




Lemma logistic_initial : logistic r K t0 y0 t0 = y0.
Proof.
  unfold logistic, logistic_denominator.
  replace (- (r * (t0 - t0))) with 0 by ring.
  rewrite exp_0. field. lra.
Qed.






(** Uniqueness: a solution of the logistic equation through [(t0, y0)] is
    the logistic curve from [t0] on.  Along a solution the defect [G]
    satisfies the linear equation [G' = a G] with [G(t0) = 0]; on a segment
    where [a <= M], [G^2 exp(-2 M (t - t0))] is non-negative, starts at zero
    and does not increase. *)
Variable u : R -> R.
Hypothesis u_initial : u t0 = y0.
Hypothesis u_ode :
  forall t, t0 <= t -> derivable_pt_lim u t (r * u t * (1 - u t / K)).

Lemma defect_initial : logistic_defect r K t0 y0 u t0 = 0.
Proof.
  unfold logistic_defect, logistic_denominator. rewrite u_initial.
  replace (- (r * (t0 - t0))) with 0 by ring. rewrite exp_0. ring.
Qed.

Lemma defect_derivative (t : R) :
  t0 <= t ->
  derivable_pt_lim (logistic_defect r K t0 y0 u) t
    (logistic_rate r K u t * logistic_defect r K t0 y0 u t).
Proof.
  intros Ht. unfold logistic_defect.
  apply (derivable_pt_lim_ext
           (minus_fct (mult_fct u (logistic_denominator r K t0 y0))
                      (fct_cte (y0 * K)))).
  - intros z. reflexivity.
  - replace (logistic_rate r K u t * (u t * logistic_denominator r K t0 y0 t - y0 * K))
      with ((r * u t * (1 - u t / K) * logistic_denominator r K t0 y0 t
             + u t * ((K - y0) * (exp (- (r * (t - t0))) * - r))) - 0).
    + apply derivable_pt_lim_minus.
      * apply derivable_pt_lim_mult; [now apply u_ode |].
        apply derivable_pt_lim_denominator.
      * apply derivable_pt_lim_const.
    + unfold logistic_rate, logistic_denominator. field. lra.
Qed.

Lemma rate_continuous (t : R) : t0 <= t -> continuity_pt (logistic_rate r K u) t.
Proof.
  intros Ht. apply derivable_continuous_pt.
  exists (- (r / K) * (r * u t * (1 - u t / K))).
  apply (derivable_pt_lim_ext (mult_real_fct (- (r / K)) u)).
  - intros z. reflexivity.
  - apply derivable_pt_lim_scal. now apply u_ode.
Qed.

Lemma defect_zero (t : R) : t0 <= t -> logistic_defect r K t0 y0 u t = 0.
Proof.
  intros Ht. destruct (Rle_lt_or_eq_dec _ _ Ht) as [Hlt | <-]; [| apply defect_initial].
  destruct (continuity_ab_maj (logistic_rate r K u) t0 t Ht) as (Mx & HM & _).
  { intros c [Hc _]. now apply rate_continuous. }
  set (a := logistic_rate r K u) in *.
  set (G := logistic_defect r K t0 y0 u).
  set (M := a Mx) in *.
  set (E := fun s => G s * G s * exp (- (2 * M * (s - t0)))).
  set (E' := fun s => (a s * G s * G s + G s * (a s * G s)) * exp (- (2 * M * (s - t0)))
                      + G s * G s * (exp (- (2 * M * (s - t0))) * - (2 * M))).
  destruct (MVT_cor2 E E' t0 t Hlt) as (c & Hc & Hc1).
  { intros c [Hc _]. unfold E, E'.
    apply (derivable_pt_lim_ext
             (mult_fct (mult_fct G G) (fun s => exp (- (2 * M * (s - t0)))))).
    - intros z. reflexivity.
    - apply (derivable_pt_lim_mult (mult_fct G G)
               (fun s => exp (- (2 * M * (s - t0)))) c
               (a c * G c * G c + G c * (a c * G c))
               (exp (- (2 * M * (c - t0))) * - (2 * M))).
      + apply (derivable_pt_lim_mult G G c (a c * G c) (a c * G c));
          now apply defect_derivative.
      + apply (derivable_pt_lim_decay (2 * M) t0 c). }
  assert (HE0 : E t0 = 0) by (unfold E, G; rewrite defect_initial; ring).
  assert (HE' : E' c <= 0).
  { unfold E'. pose proof (exp_pos (- (2 * M * (c - t0)))) as He.
    assert (Ha : a c <= M) by (apply HM; lra).
    replace ((a c * G c * G c + G c * (a c * G c)) * exp (- (2 * M * (c - t0)))
             + G c * G c * (exp (- (2 * M * (c - t0))) * - (2 * M)))
      with (- (2 * (M - a c) * (G c * G c) * exp (- (2 * M * (c - t0))))) by ring.
    assert (0 <= G c * G c) by nra.
    assert (0 <= 2 * (M - a c) * (G c * G c)) by nra.
    nra. }
  assert (HEt : E t <= 0) by nra.
  unfold E in HEt. pose proof (exp_pos (- (2 * M * (t - t0)))) as He.
  assert (Hsq : 0 <= G t * G t) by nra.
  assert (Hz : G t * G t = 0) by nra.
  nra.
Qed.


End Logistic.

(** On finite values and a carrying capacity that is not zero,
    [control_tumor] is the logistic right-hand side. *)
Lemma control_tumor_finite_value (r K N : R) (t : npfloat) :
  K <> 0 ->
  control_tumor [Fin N] t [Fin r; Fin K] = Ok (Fin (r * N * (1 - N / K))).
Proof.
  intros HK. unfold control_tumor, rbind, getitem. cbn [nth_error].
  unfold div. pose proof (Rsign_nonzero K HK) as HsK.
  destruct (Rsign K); try congruence; reflexivity.
Qed.

Lemma solves_logistic_equation (r K t0 y0 : R) (u : R -> R) :
  K <> 0 ->
  solves control_tumor [Fin r; Fin K] t0 y0 u ->
  u t0 = y0 /\
  forall t, t0 <= t -> derivable_pt_lim u t (r * u t * (1 - u t / K)).
Proof.
  intros HK [H0 Hode]. split; [exact H0 |]. intros t Ht.
  destruct (Hode t Ht) as (d & Hd & Hder).
  rewrite (control_tumor_finite_value r K (u t) (Fin t) HK) in Hd.
  injection Hd as <-. exact Hder.
Qed.





(** ** A numerical trajectory of the logistic model *)







(** * Further properties of the notebook's code *)

(** ** Addition of NumPy floats *)

Lemma add_zero_l (a : npfloat) : add (Fin 0) a = a.
Proof. destruct a; simpl; try reflexivity. f_equal. ring. Qed.

(** ** Ill-formed arguments of the likelihoods *)

Lemma length_not_3 {A} (l : list A) :
  length l <> 3%nat -> unpack3 l = Raise ValueError.
Proof.
  destruct l as [| a [| b [| c [| d l]]]]; simpl; intros H; try reflexivity.
  congruence.
Qed.

Lemma length_not_4 {A} (l : list A) :
  length l <> 4%nat -> unpack4 l = Raise ValueError.
Proof.
  destruct l as [| a [| b [| c [| d [| e l]]]]]; simpl; intros H; try reflexivity.
  congruence.
Qed.

Lemma broadcast_mismatch {A B C} (f : A -> B -> C) (xs : list A) (ys : list B) :
  length xs <> length ys -> length xs <> 1%nat -> length ys <> 1%nat ->
  broadcast f xs ys = Raise ValueError.
Proof.
  intros Hne Hx Hy. unfold broadcast.
  apply Nat.eqb_neq in Hne. rewrite Hne.
  destruct xs as [| x [| x' xs]]; destruct ys as [| z [| z' ys]];
    simpl in *; congruence.
Qed.

Section ArgumentErrors.

Variable integrate : integrator.

(** X1. A parameter vector of the wrong length makes the unpacking
    statement raise [ValueError]: three components are required by
    [log_likelihood] and [nll], four by [log_likelihood_ic], [nll_ic],
    [log_prior] and [log_probability]; the forward model is not evaluated. *)
Theorem parameter_count_errors (theta times : array1) (y : array2) (n : nat) :
  (length theta <> 3%nat ->
     log_likelihood integrate theta times y n = (Raise ValueError, n) /\
     nll integrate theta times y n = (Raise ValueError, n)) /\
  (length theta <> 4%nat ->
     log_likelihood_ic integrate theta times y n = (Raise ValueError, n) /\
     nll_ic integrate theta times y n = (Raise ValueError, n) /\
     log_prior theta = Raise ValueError /\
     log_probability integrate theta times y n = (Raise ValueError, n)).
Proof.
  split.
  - intros H. pose proof (length_not_3 theta H) as E.
    assert (E1 : log_likelihood integrate theta times y n = (Raise ValueError, n)).
    { unfold log_likelihood, bind, lift. now rewrite E. }
    split; [exact E1 |]. rewrite nll_unfold. now rewrite E1.
  - intros H. pose proof (length_not_4 theta H) as E.
    assert (E1 : log_likelihood_ic integrate theta times y n = (Raise ValueError, n)).
    { unfold log_likelihood_ic, bind, lift. now rewrite E. }
    assert (E2 : log_prior theta = Raise ValueError).
    { unfold log_prior. now rewrite E. }
    repeat split; trivial.
    + rewrite nll_ic_unfold. now rewrite E1.
    + unfold log_probability, bind, lift. now rewrite E2.
Qed.

(** X2. The empty dataset.  [log_likelihood] raises [IndexError] at [y[0]],
    before the forward model is evaluated.  [log_likelihood_ic] evaluates the
    forward model once; against a trajectory of at most one row the
    difference broadcasts to an empty array and the result is zero, against
    a longer trajectory the subtraction raises [ValueError]. *)
Theorem likelihood_of_empty_dataset (cal_r cal_K cal_sigma cal_ic : npfloat)
    (times : array1) (n : nat) :
  log_likelihood integrate [cal_r; cal_K; cal_sigma] times [] n = (Raise IndexError, n) /\
  (forall traj,
     integrate (scalar_rhs control_tumor) [cal_ic] times [cal_r; cal_K] = Ok traj ->
     ((length traj <= 1)%nat ->
        log_likelihood_ic integrate [cal_r; cal_K; cal_sigma; cal_ic] times [] n
        = (Ok (Fin (-1 / 2 * 0)), S n)) /\
     ((2 <= length traj)%nat ->
        log_likelihood_ic integrate [cal_r; cal_K; cal_sigma; cal_ic] times [] n
        = (Raise ValueError, S n))).
Proof.
  split; [reflexivity |]. intros traj Hint.
  unfold log_likelihood_ic, bind, lift, odeint, ret. cbn [unpack4]. rewrite Hint.
  split; intros Hlen.
  - destruct traj as [| row [| row' traj]]; simpl in Hlen; try lia; reflexivity.
  - unfold sub2. rewrite broadcast_mismatch; simpl; try lia. reflexivity.
Qed.

(** X3. A dataset and a trajectory with different numbers of rows, neither
    of them a single row, do not broadcast: both likelihoods raise
    [ValueError] after the forward model has been evaluated. *)
Theorem likelihood_shape_mismatch (cal_r cal_K cal_sigma : npfloat)
    (times : array1) (y traj : array2) (n : nat) :
  length y <> length traj -> length y <> 1%nat -> length traj <> 1%nat ->
  (forall row rest, y = row :: rest ->
     integrate (scalar_rhs control_tumor) row times [cal_r; cal_K] = Ok traj ->
     log_likelihood integrate [cal_r; cal_K; cal_sigma] times y n
     = (Raise ValueError, S n)) /\
  (forall cal_ic,
     integrate (scalar_rhs control_tumor) [cal_ic] times [cal_r; cal_K] = Ok traj ->
     log_likelihood_ic integrate [cal_r; cal_K; cal_sigma; cal_ic] times y n
     = (Raise ValueError, S n)).
Proof.
  intros Hne Hy Ht.
  assert (E : sub2 y traj = Raise ValueError).
  { unfold sub2. now rewrite broadcast_mismatch. }
  split.
  - intros row rest -> Hint.
    unfold log_likelihood, bind, lift, odeint, ret.
    cbn [unpack3 getitem nth_error]. now rewrite Hint, E.
  - intros cal_ic Hint.
    unfold log_likelihood_ic, bind, lift, odeint, ret.
    cbn [unpack4]. now rewrite Hint, E.
Qed.

End ArgumentErrors.

Lemma parameter_count_errors_witness :
  (log_likelihood euler_odeint [Fin (4 / 10); Fin 50; Fin (3 / 10); Fin 5] times
     (as_column [1]) 0%nat = (Raise ValueError, 0%nat) /\
   nll euler_odeint [Fin (4 / 10); Fin 50; Fin (3 / 10); Fin 5] times
     (as_column [1]) 0%nat = (Raise ValueError, 0%nat)) /\
  (log_likelihood_ic euler_odeint [Fin (4 / 10); Fin 50; Fin (3 / 10)] times
     (as_column [1]) 0%nat = (Raise ValueError, 0%nat) /\
   nll_ic euler_odeint [Fin (4 / 10); Fin 50; Fin (3 / 10)] times
     (as_column [1]) 0%nat = (Raise ValueError, 0%nat) /\
   log_prior [Fin (4 / 10); Fin 50; Fin (3 / 10)] = Raise ValueError /\
   log_probability euler_odeint [Fin (4 / 10); Fin 50; Fin (3 / 10)] times
     (as_column [1]) 0%nat = (Raise ValueError, 0%nat)).
Proof.
  split.
  - apply (proj1 (parameter_count_errors euler_odeint
                    [Fin (4 / 10); Fin 50; Fin (3 / 10); Fin 5] times
                    (as_column [1]) 0%nat)).
    simpl. lia.
  - apply (proj2 (parameter_count_errors euler_odeint
                    [Fin (4 / 10); Fin 50; Fin (3 / 10)] times
                    (as_column [1]) 0%nat)).
    simpl. lia.
Defined.

Lemma likelihood_of_empty_dataset_witness :
  log_likelihood_ic euler_odeint [Fin (1 / 4); Fin 60; Fin 1; Fin 1] [Fin 0] [] 0%nat
  = (Ok (Fin (-1 / 2 * 0)), 1%nat) /\
  log_likelihood_ic euler_odeint [Fin (1 / 4); Fin 60; Fin 1; Fin 1] [Fin 0; Fin 1] [] 0%nat
  = (Raise ValueError, 1%nat).
Proof.
  split.
  - apply (proj2 (likelihood_of_empty_dataset euler_odeint (Fin (1 / 4)) (Fin 60) (Fin 1)
                    (Fin 1) [Fin 0] 0%nat) [[Fin 1]] eq_refl).
    simpl. lia.
  - apply (proj2 (likelihood_of_empty_dataset euler_odeint (Fin (1 / 4)) (Fin 60) (Fin 1)
                    (Fin 1) [Fin 0; Fin 1] 0%nat) (as_column [1; euler_y1])
             euler_two_points).
    simpl. lia.
Defined.

Lemma likelihood_shape_mismatch_witness :
  log_likelihood euler_odeint [Fin (1 / 4); Fin 60; Fin 1] [Fin 0; Fin 1]
    (as_column [1; 2; 3]) 0%nat = (Raise ValueError, 1%nat) /\
  log_likelihood_ic euler_odeint [Fin (1 / 4); Fin 60; Fin 1; Fin 1] [Fin 0; Fin 1]
    (as_column [1; 2; 3]) 0%nat = (Raise ValueError, 1%nat).
Proof.
  destruct (likelihood_shape_mismatch euler_odeint (Fin (1 / 4)) (Fin 60) (Fin 1)
              [Fin 0; Fin 1] (as_column [1; 2; 3]) (as_column [1; euler_y1]) 0%nat)
    as [H1 H2]; try (simpl; lia).
  split.
  - exact (H1 [Fin 1] (as_column [2; 3]) eq_refl euler_two_points).
  - exact (H2 (Fin 1) euler_two_points).
Defined.

(** ** Broadcasting of a one-row dataset *)




Section Likelihoods.

Variable integrate : integrator.


(** X5. Inside the open box the uniform prior contributes nothing: the
    log-posterior is the log-likelihood, with the same value, the same
    exception if one is raised, and one forward-model evaluation. *)
Theorem log_probability_inside_box (theta times : array1) (y : array2) (n : nat) :
  in_box strictly_between (lb bounds_4) (ub bounds_4) theta ->
  log_probability integrate theta times y n = log_likelihood_ic integrate theta times y n.
Proof.
  intros Hin. unfold log_probability, bind, lift.
  rewrite (log_prior_inside theta Hin). cbn [isfinite negb].
  destruct (log_likelihood_ic integrate theta times y n) as [[v | e] m];
    [| reflexivity].
  unfold ret. now rewrite add_zero_l.
Qed.

End Likelihoods.


Lemma log_probability_inside_box_witness :
  log_probability euler_odeint [Fin (1 / 4); Fin 60; Fin 1; Fin 1] [Fin 0; Fin 1]
    (as_column [1; 2]) 0%nat
  = log_likelihood_ic euler_odeint [Fin (1 / 4); Fin 60; Fin 1; Fin 1] [Fin 0; Fin 1]
      (as_column [1; 2]) 0%nat.
Proof.
  apply (log_probability_inside_box euler_odeint). simpl. lra.
Defined.

(** ** Clipping *)

Lemma clip_negative_entries (a : array2) : clip_negative a = map2d clip_entry a.
Proof. reflexivity. Qed.

Lemma clip_entry_idempotent (e : npfloat) : clip_entry (clip_entry e) = clip_entry e.
Proof.
  unfold clip_entry. destruct e as [v | | |]; simpl; try reflexivity.
  - destruct (Rltb v 0) eqn:E; simpl.
    + assert (H : Rltb 0 0 = false) by (apply Rltb_false; lra). now rewrite H.
    + now rewrite E.
  - assert (H : Rltb 0 0 = false) by (apply Rltb_false; lra). now rewrite H.
Qed.

Lemma clip_entry_fixes_nonnegative (e : npfloat) :
  nonnegative e -> clip_entry e = e.
Proof.
  unfold nonnegative, clip_entry. destruct e as [v | | |]; simpl; intros H;
    try discriminate; try reflexivity.
  apply Rleb_true in H.
  assert (E : Rltb v 0 = false) by (apply Rltb_false; lra). now rewrite E.
Qed.

(** X8. Clipping is idempotent, it leaves an array without negative
    entries as it is, and it keeps the shape. *)
Theorem clip_negative_idempotent (a : array2) :
  clip_negative (clip_negative a) = clip_negative a /\
  (all_entries nonnegative a -> clip_negative a = a) /\
  shape (clip_negative a) = shape a.
Proof.
  split; [| split]; [| | apply clip_negative_shape];
    change clip_negative with (map2d clip_entry); unfold map2d.
  - rewrite map_map. apply map_ext. intros row. rewrite map_map.
    apply map_ext. intros e. apply clip_entry_idempotent.
  - intros H. unfold all_entries in H.
    induction H as [| row a Hrow Ha IH]; simpl; [reflexivity |].
    rewrite IH. f_equal.
    induction Hrow as [| e row He Hrow IHrow]; simpl; [reflexivity |].
    now rewrite IHrow, (clip_entry_fixes_nonnegative e He).
Qed.

Lemma clip_negative_idempotent_witness :
  clip_negative [[Fin 1; Fin 0]; [PInf; Fin 2]] = [[Fin 1; Fin 0]; [PInf; Fin 2]].
Proof.
  apply (proj1 (proj2 (clip_negative_idempotent [[Fin 1; Fin 0]; [PInf; Fin 2]]))).
  repeat constructor; unfold nonnegative; simpl; try reflexivity;
    apply Rleb_true; lra.
Defined.

(** ** The perturbation cell of the exercise *)

Lemma column_raises (k : nat) (a : array2) (e : exn) :
  column k a = Raise e -> e = IndexError.
Proof.
  unfold column. induction a as [| row a IH]; simpl; [discriminate |].
  unfold getitem at 1. destruct (nth_error row k); simpl.
  - destruct (sequence (map (fun row0 => getitem row0 k) a)); simpl;
      [discriminate |].
    intros H. injection H as <-. now apply IH.
  - intros H. now injection H as <-.
Qed.

Lemma column_undefined (k : nat) (a : array2) :
  ~ Forall (fun row => (k < length row)%nat) a -> column k a = Raise IndexError.
Proof.
  intros H. destruct (column k a) as [c | e] eqn:E.
  - exfalso. apply H. clear H. unfold column in E. revert c E.
    induction a as [| row a IH]; intros c E; [constructor |].
    simpl in E. unfold getitem at 1 in E.
    destruct (nth_error row k) eqn:En; simpl in E; [| discriminate].
    destruct (sequence (map (fun row0 => getitem row0 k) a)) as [c' |];
      simpl in E; [| discriminate].
    constructor.
    + apply nth_error_Some. congruence.
    + now apply (IH c').
  - f_equal. now apply column_raises in E.
Qed.

Section ExerciseCell.

Variable G : RandomSource.

Lemma normal1_length (locs : array1) (scale : npfloat) (st : rng_state G) :
  length (fst (normal1 G locs scale st)) = length locs.
Proof.
  revert st. induction locs as [| l locs IH]; intros st; simpl; [reflexivity |].
  destruct (normal G l scale st) as [x st1]. specialize (IH st1).
  destruct (normal1 G locs scale st1) as [xs st2]. simpl in *. now rewrite IH.
Qed.

(** X9. The perturbation cell of the exercise needs two columns: on a
    trajectory with at least one row it returns observations of the shape of
    the trajectory when every row has at least two entries, and raises
    [IndexError] otherwise. *)
Theorem perturb_exercise_defined (y : array2) (st : rng_state G) :
  (y <> [] -> Forall (fun row => (2 <= length row)%nat) y ->
     exists yobs, fst (perturb_exercise G y st) = Ok yobs /\ shape yobs = shape y) /\
  (~ Forall (fun row => (2 <= length row)%nat) y ->
     fst (perturb_exercise G y st) = Raise IndexError).
Proof.
  unfold perturb_exercise, np_random_seed. split.
  - intros _ Hw.
    destruct (column_defined 0 y) as [c0 Hc0].
    { eapply Forall_impl; [| exact Hw]. simpl. intros row H. lia. }
    destruct (column_defined 1 y) as [c1 Hc1].
    { eapply Forall_impl; [| exact Hw]. simpl. intros row H. lia. }
    rewrite Hc0, Hc1.
    pose proof (normal1_length c0 Exercise.true_sigmaT (seed_state G 2021)) as Hl0.
    destruct (normal1 G c0 Exercise.true_sigmaT (seed_state G 2021)) as [n0 st0].
    pose proof (normal1_length c1 Exercise.true_sigmaD st0) as Hl1.
    destruct (normal1 G c1 Exercise.true_sigmaD st0) as [n1 st1]. simpl in *.
    eexists. split; [reflexivity |].
    rewrite clip_negative_shape.
    assert (E0 : shape (set_column 0 n0 y) = shape y).
    { apply set_column_shape. rewrite Hl0. now apply column_length in Hc0. }
    rewrite set_column_shape; [exact E0 |].
    rewrite Hl1. apply column_length in Hc1. rewrite Hc1.
    apply (f_equal (@length nat)) in E0. unfold shape in E0.
    now rewrite !length_map in E0.
  - intros Hw. pose proof (column_undefined 1 y Hw) as Hc1.
    destruct (column 0 y) as [c0 | e] eqn:Hc0.
    + destruct (normal1 G c0 Exercise.true_sigmaT (seed_state G 2021)) as [n0 st0].
      now rewrite Hc1.
    + simpl. f_equal. now apply column_raises in Hc0.
Qed.

End ExerciseCell.

Lemma perturb_exercise_defined_witness :
  (exists yobs,
     fst (perturb_exercise lcg [[Fin 1; Fin 5]; [Fin 2; Fin 4]] 0%Z) = Ok yobs /\
     shape yobs = shape [[Fin 1; Fin 5]; [Fin 2; Fin 4]]) /\
  fst (perturb_exercise lcg (column_of [Fin 1; Fin 2]) 0%Z) = Raise IndexError.
Proof.
  split.
  - apply (proj1 (perturb_exercise_defined lcg [[Fin 1; Fin 5]; [Fin 2; Fin 4]] 0%Z)).
    + discriminate.
    + repeat constructor.
  - apply (proj2 (perturb_exercise_defined lcg (column_of [Fin 1; Fin 2]) 0%Z)).
    intros H. inversion H as [| ? ? H1 _]. simpl in H1. lia.
Defined.

Lemma set_item_same {A} (k : nat) (x : A) (l : list A) :
  (k < length l)%nat -> nth_error (set_item k x l) k = Some x.
Proof.
  revert k. induction l as [| a l IH]; intros [| k] H; simpl in *; try lia.
  - reflexivity.
  - apply IH. lia.
Qed.

Lemma set_item_other {A} (j k : nat) (x : A) (l : list A) :
  k <> j -> nth_error (set_item j x l) k = nth_error l k.
Proof.
  revert j k. induction l as [| a l IH]; intros [| j] [| k] H; simpl;
    try reflexivity; try congruence.
  apply IH. congruence.
Qed.

Lemma column_set_column_same (k : nat) (v : array1) (a : array2) :
  length v = length a -> Forall (fun row => (k < length row)%nat) a ->
  column k (set_column k v a) = Ok v.
Proof.
  unfold column, set_column. revert v.
  induction a as [| row a IH]; intros [| x v] Hlen Hw; simpl in *;
    try discriminate; [reflexivity |].
  inversion Hw as [| ? ? Hrow Ha]; subst. injection Hlen as Hlen.
  unfold getitem at 1. rewrite (set_item_same k x row Hrow). simpl.
  now rewrite (IH v Hlen Ha).
Qed.

Lemma column_set_column_other (j k : nat) (v : array1) (a : array2) :
  k <> j -> length v = length a ->
  column k (set_column j v a) = column k a.
Proof.
  intros Hkj. unfold column, set_column. revert v.
  induction a as [| row a IH]; intros [| x v] Hlen; simpl in *;
    try discriminate; [reflexivity |].
  injection Hlen as Hlen.
  unfold getitem at 1 3. rewrite (set_item_other j k x row Hkj).
  now rewrite (IH v Hlen).
Qed.

Lemma getitem_map {A B} (f : A -> B) (l : list A) (k : nat) :
  getitem (map f l) k = rbind (getitem l k) (fun x => Ok (f x)).
Proof.
  unfold getitem. rewrite nth_error_map. now destruct (nth_error l k).
Qed.

Lemma column_map2d (f : npfloat -> npfloat) (k : nat) (a : array2) :
  column k (map2d f a) = rbind (column k a) (fun c => Ok (map f c)).
Proof.
  unfold column, map2d. induction a as [| row a IH]; simpl; [reflexivity |].
  rewrite IH, getitem_map.
  destruct (getitem row k); simpl; [| reflexivity].
  destruct (sequence (map (fun row0 => getitem row0 k) a)); reflexivity.
Qed.

Lemma map2d_column_of (f : npfloat -> npfloat) (l : array1) :
  map2d f (column_of l) = column_of (map f l).
Proof.
  unfold map2d, column_of. rewrite !map_map. reflexivity.
Qed.

Section SharedNoise.

Variable G : RandomSource.

Lemma normal2_column_of (l : array1) (scale : npfloat) (st : rng_state G) :
  normal2 G (column_of l) scale st
  = (column_of (fst (normal1 G l scale st)), snd (normal1 G l scale st)).
Proof.
  revert st. induction l as [| x l IH]; intros st; simpl; [reflexivity |].
  destruct (normal G x scale st) as [v st1]. rewrite (IH st1).
  destruct (normal1 G l scale st1) as [xs st2]. reflexivity.
Qed.

(** X10. Both perturbation cells reseed with 2021 and draw the tumour
    noise first, with the same sigma: the tumour column of the exercise's
    observations is what the first perturbation cell returns for the tumour
    column of the trajectory. *)
Theorem tumour_noise_shared (y : array2) (c0 : array1) (st st' : rng_state G) :
  Forall (fun row => (2 <= length row)%nat) y ->
  column 0 y = Ok c0 ->
  exists yobs c,
    fst (perturb_exercise G y st) = Ok yobs /\
    column 0 yobs = Ok c /\
    fst (perturb G (column_of c0) st') = column_of c.
Proof.
  intros Hw Hc0.
  assert (Hw0 : Forall (fun row => (0 < length row)%nat) y).
  { eapply Forall_impl; [| exact Hw]. simpl. intros row H. lia. }
  destruct (column_defined 1 y) as [c1 Hc1].
  { eapply Forall_impl; [| exact Hw]. simpl. intros row H. lia. }
  unfold perturb_exercise, perturb, np_random_seed. rewrite Hc0, Hc1.
  rewrite normal2_column_of.
  change true_sigma with Exercise.true_sigmaT.
  pose proof (normal1_length G c0 Exercise.true_sigmaT (seed_state G 2021)) as Hl0.
  destruct (normal1 G c0 Exercise.true_sigmaT (seed_state G 2021)) as [n0 st0].
  pose proof (normal1_length G c1 Exercise.true_sigmaD st0) as Hl1.
  destruct (normal1 G c1 Exercise.true_sigmaD st0) as [n1 st1]. cbn [fst snd] in *.
  assert (Hy0 : length n0 = length y).
  { rewrite Hl0. now apply column_length in Hc0. }
  assert (Hy1 : length n1 = length (set_column 0 n0 y)).
  { rewrite Hl1. apply column_length in Hc1. rewrite Hc1.
    pose proof (set_column_shape 0 n0 y Hy0) as E.
    apply (f_equal (@length nat)) in E. unfold shape in E.
    now rewrite !length_map in E. }
  exists (clip_negative (set_column 1 n1 (set_column 0 n0 y))), (map clip_entry n0).
  split; [reflexivity |]. split.
  - change clip_negative with (map2d clip_entry). rewrite column_map2d.
    rewrite column_set_column_other by (congruence || exact Hy1).
    now rewrite (column_set_column_same 0 n0 y Hy0 Hw0).
  - change clip_negative with (map2d clip_entry). apply map2d_column_of.
Qed.

End SharedNoise.

Lemma tumour_noise_shared_witness :
  exists yobs c,
    fst (perturb_exercise lcg [[Fin 1; Fin 5]; [Fin 2; Fin 4]] 0%Z) = Ok yobs /\
    column 0 yobs = Ok c /\
    fst (perturb lcg (column_of [Fin 1; Fin 2]) 7%Z) = column_of c.
Proof.
  apply (tumour_noise_shared lcg [[Fin 1; Fin 5]; [Fin 2; Fin 4]] [Fin 1; Fin 2]
           0%Z 7%Z).
  - repeat constructor.
  - reflexivity.
Defined.

(** ** Initial positions of the walkers *)

Lemma set_item_twice {A} (k : nat) (x x' : A) (l : list A) :
  set_item k x' (set_item k x l) = set_item k x' l.
Proof.
  revert k. induction l as [| a l IH]; intros [| k]; simpl; try reflexivity.
  now rewrite IH.
Qed.

Lemma setitem2_defined (pos : array2) (i j : nat) (x : npfloat) (row : array1) :
  nth_error pos i = Some row -> (j < length row)%nat ->
  setitem2 pos i j x = Ok (set_item i (set_item j x row) pos).
Proof.
  intros Hi Hj. unfold setitem2, getitem, setitem. rewrite Hi. simpl.
  apply Nat.ltb_lt in Hj. rewrite Hj. simpl.
  assert (Hlt : (i < length pos)%nat) by (apply nth_error_Some; congruence).
  apply Nat.ltb_lt in Hlt. now rewrite Hlt.
Qed.

Lemma Forall_nth_error {A} (P : A -> Prop) (l : list A) :
  (forall k, (k < length l)%nat -> exists a, nth_error l k = Some a /\ P a) ->
  Forall P l.
Proof.
  intros H. apply Forall_forall. intros a Hin.
  destruct (In_nth_error l a Hin) as [k Hk].
  assert (Hlt : (k < length l)%nat) by (apply nth_error_Some; congruence).
  destruct (H k Hlt) as (a' & Ha' & HP). congruence.
Qed.

Section WalkerFacts.

Variable G : RandomSource.
Variable random_sample : rng_state G -> R * rng_state G.

(** A property of the draws of [uniform], such as lying in an interval. *)
Variable Q : R -> R -> npfloat -> Prop.
Hypothesis uniform_Q :
  forall lo hi st, lo < hi -> Q lo hi (fst (uniform G random_sample lo hi st)).

Lemma draw_into_spec (pos : array2) (i j : nat) (lo hi : R) (row : array1)
    (st : rng_state G) :
  lo < hi -> nth_error pos i = Some row -> (j < length row)%nat ->
  exists v st',
    draw_into G random_sample pos i j lo hi st
    = (Ok (set_item i (set_item j v row) pos), st') /\ Q lo hi v.
Proof.
  intros Hlt Hi Hj. unfold draw_into.
  pose proof (uniform_Q lo hi st Hlt) as HQ.
  destruct (uniform G random_sample lo hi st) as [v st1]. simpl in HQ.
  exists v, st1. split; [| exact HQ].
  now rewrite (setitem2_defined pos i j v row Hi Hj).
Qed.

Lemma fill_walker_spec (pos : array2) (i : nat) (row : array1) (st : rng_state G) :
  nth_error pos i = Some row -> length row = 4%nat ->
  exists new st',
    fill_walker G random_sample pos i st = (Ok (set_item i new pos), st') /\
    in_box Q (lb bounds_4) (ub bounds_4) new.
Proof.
  intros Hi Hlen. destruct (length_4 row Hlen) as (a & b & c & d & ->).
  assert (Hlt : (i < length pos)%nat) by (apply nth_error_Some; congruence).
  unfold fill_walker, gbind.
  destruct (draw_into_spec pos i 0 0 1 _ st ltac:(lra) Hi ltac:(simpl; lia))
    as (v0 & st0 & -> & H0).
  cbn [set_item].
  destruct (draw_into_spec (set_item i [v0; b; c; d] pos) i 1 10 120
              [v0; b; c; d] st0 ltac:(lra)
              (set_item_same i _ pos Hlt) ltac:(simpl; lia))
    as (v1 & st1 & -> & H1).
  cbn [set_item]. rewrite set_item_twice.
  destruct (draw_into_spec (set_item i [v0; v1; c; d] pos) i 2 (1/10) 30
              [v0; v1; c; d] st1 ltac:(lra)
              (set_item_same i _ pos Hlt) ltac:(simpl; lia))
    as (v2 & st2 & -> & H2).
  cbn [set_item]. rewrite set_item_twice.
  destruct (draw_into_spec (set_item i [v0; v1; v2; d] pos) i 3 (1/10) 20
              [v0; v1; v2; d] st2 ltac:(lra)
              (set_item_same i _ pos Hlt) ltac:(simpl; lia))
    as (v3 & st3 & -> & H3).
  cbn [set_item]. rewrite set_item_twice.
  exists [v0; v1; v2; v3], st3. split; [reflexivity |]. simpl. tauto.
Qed.

Lemma fill_walkers_spec (indices : list nat) :
  forall (pos : array2) (st : rng_state G),
    Forall (fun i => (i < length pos)%nat) indices ->
    Forall (fun row => length row = 4%nat) pos ->
    exists pos' st',
      fill_walkers G random_sample indices pos st = (Ok pos', st') /\
      length pos' = length pos /\
      Forall (fun row => length row = 4%nat) pos' /\
      forall k,
        (In k indices \/
         exists row, nth_error pos k = Some row /\ in_box Q (lb bounds_4) (ub bounds_4) row) ->
        (k < length pos)%nat ->
        exists row', nth_error pos' k = Some row' /\
                     in_box Q (lb bounds_4) (ub bounds_4) row'.
Proof.
  induction indices as [| i rest IH]; intros pos st Hidx Hrows.
  - exists pos, st. repeat split; trivial.
    intros k [[] | Hk] _. exact Hk.
  - inversion Hidx as [| ? ? Hi Hrest]; subst.
    destruct (nth_error pos i) as [row |] eqn:Erow;
      [| apply nth_error_None in Erow; lia].
    assert (Hrow : length row = 4%nat).
    { rewrite Forall_forall in Hrows. apply Hrows. eapply nth_error_In; eauto. }
    destruct (fill_walker_spec pos i row st Erow Hrow) as (new & st1 & Hfill & Hnew).
    assert (Hnew4 : length new = 4%nat).
    { destruct new as [| a [| b [| c [| d [| e l]]]]]; simpl in Hnew; tauto. }
    set (pos1 := set_item i new pos) in *.
    assert (Hlen1 : length pos1 = length pos) by apply set_item_length.
    destruct (IH pos1 st1) as (pos' & st' & Hrun & Hlen' & Hrows' & Hinv).
    { rewrite Hlen1. exact Hrest. }
    { now apply set_item_Forall. }
    exists pos', st'. cbn [fill_walkers]. unfold gbind. rewrite Hfill.
    split; [exact Hrun |]. split; [congruence |]. split; [exact Hrows' |].
    intros k Hk Hklt. apply Hinv; [| lia].
    destruct (Nat.eq_dec k i) as [-> | Hne].
    + right. exists new. split; [| exact Hnew].
      apply set_item_same. exact Hi.
    + destruct Hk as [[Heq | Hin] | (r & Hr & Hbox)].
      * congruence.
      * left. exact Hin.
      * right. exists r. split; [| exact Hbox].
        unfold pos1. now rewrite set_item_other.
Qed.

Lemma initial_positions_spec (st : rng_state G) :
  exists pos st',
    initial_positions G random_sample st = (Ok pos, st') /\
    length pos = nwalkers /\
    Forall (in_box Q (lb bounds_4) (ub bounds_4)) pos.
Proof.
  unfold initial_positions.
  destruct (fill_walkers_spec (seq 0 nwalkers) (zeros nwalkers ndim) st)
    as (pos & st' & Hrun & Hlen & _ & Hinv).
  - apply Forall_forall. intros i Hi. apply in_seq in Hi.
    unfold zeros. rewrite repeat_length. lia.
  - unfold zeros. apply Forall_forall. intros row Hrow.
    apply repeat_spec in Hrow. subst row. apply repeat_length.
  - unfold zeros in Hlen. rewrite repeat_length in Hlen.
    exists pos, st'. split; [exact Hrun |]. split; [exact Hlen |].
    apply Forall_nth_error. intros k Hk.
    assert (Hk' : (k < nwalkers)%nat) by (rewrite <- Hlen; exact Hk).
    apply Hinv.
    + left. apply in_seq. lia.
    + unfold zeros. rewrite repeat_length. exact Hk'.
Qed.

End WalkerFacts.

Lemma uniform_half_open (G : RandomSource)
    (random_sample : rng_state G -> R * rng_state G) :
  (forall s, 0 <= fst (random_sample s) < 1) ->
  forall lo hi st, lo < hi -> half_open lo hi (fst (uniform G random_sample lo hi st)).
Proof.
  intros Hu lo hi st Hlt. unfold uniform. specialize (Hu st).
  destruct (random_sample st) as [u st']. simpl in *.
  assert (H1 : 0 <= (hi - lo) * u) by (apply Rmult_le_pos; lra).
  assert (H2 : (hi - lo) * u < (hi - lo) * 1) by (apply Rmult_lt_compat_l; lra).
  lra.
Qed.

Lemma uniform_strictly_between (G : RandomSource)
    (random_sample : rng_state G -> R * rng_state G) :
  (forall s, 0 < fst (random_sample s) < 1) ->
  forall lo hi st, lo < hi ->
    strictly_between lo hi (fst (uniform G random_sample lo hi st)).
Proof.
  intros Hu lo hi st Hlt. unfold uniform. specialize (Hu st).
  destruct (random_sample st) as [u st']. simpl in *.
  assert (H1 : 0 < (hi - lo) * u) by (apply Rmult_lt_0_compat; lra).
  assert (H2 : (hi - lo) * u < (hi - lo) * 1) by (apply Rmult_lt_compat_l; lra).
  lra.
Qed.

(** X11. The loop that initialises the walkers raises no exception and
    returns [nwalkers] positions of four components, each component in the
    half-open interval from its lower bound (included) to its upper bound
    (excluded).  When no draw of the generator is exactly zero, every
    position has the finite log-prior [0.0]. *)
Theorem initial_positions_in_box (G : RandomSource)
    (random_sample : rng_state G -> R * rng_state G) (st : rng_state G) :
  (forall s, 0 <= fst (random_sample s) < 1) ->
  exists pos st',
    initial_positions G random_sample st = (Ok pos, st') /\
    length pos = nwalkers /\
    Forall (in_box half_open (lb bounds_4) (ub bounds_4)) pos /\
    ((forall s, 0 < fst (random_sample s)) ->
     Forall (fun row => log_prior row = Ok (Fin 0)) pos).
Proof.
  intros Hu.
  destruct (initial_positions_spec G random_sample half_open
              (uniform_half_open G random_sample Hu) st)
    as (pos & st' & Hrun & Hlen & Hbox).
  exists pos, st'. repeat split; trivial.
  intros Hpos.
  assert (Hu' : forall s, 0 < fst (random_sample s) < 1).
  { intros s. specialize (Hu s). specialize (Hpos s). lra. }
  destruct (initial_positions_spec G random_sample strictly_between
              (uniform_strictly_between G random_sample Hu') st)
    as (pos2 & st2 & Hrun2 & _ & Hbox2).
  rewrite Hrun in Hrun2. injection Hrun2 as <- <-.
  eapply Forall_impl; [| exact Hbox2]. intros row. apply log_prior_inside.
Qed.

Lemma initial_positions_in_box_witness :
  exists pos st',
    initial_positions lcg lcg_random_sample 0%Z = (Ok pos, st') /\
    length pos = nwalkers /\
    Forall (in_box half_open (lb bounds_4) (ub bounds_4)) pos /\
    Forall (fun row => log_prior row = Ok (Fin 0)) pos.
Proof.
  destruct (initial_positions_in_box lcg lcg_random_sample 0%Z)
    as (pos & st' & Hrun & Hlen & Hbox & Hprior).
  - intros s. simpl. lra.
  - exists pos, st'. repeat split; trivial.
    apply Hprior. intros s. simpl. lra.
Defined.

(** ** Reporting cells *)

(** X12. The percent error against a positive true value is never
    negative; it is zero when the estimate equals the true value; an
    estimate that is [nan] gives [nan] and an infinite estimate gives
    [+inf]. *)
Theorem percent_error_spec (ml truth : R) :
  0 < truth ->
  nonnegative (percent_error (Fin ml) (Fin truth)) /\
  percent_error (Fin truth) (Fin truth) = Fin 0 /\
  percent_error NaN (Fin truth) = NaN /\
  percent_error PInf (Fin truth) = PInf /\
  percent_error NInf (Fin truth) = PInf.
Proof.
  intros Ht.
  assert (H100 : 0 < 100) by lra.
  assert (Hneg : - 100 < 0) by lra.
  repeat split.
  - unfold nonnegative, percent_error, div. simpl. rewrite (Rsign_pos _ Ht). simpl.
    apply Rleb_true. pose proof (Rabs_pos (ml + - truth)) as Ha.
    apply Rmult_le_pos; [apply Rmult_le_pos; lra |].
    left. now apply Rinv_0_lt_compat.
  - unfold percent_error, div. simpl. rewrite (Rsign_pos _ Ht). f_equal.
    replace (truth + - truth) with 0 by ring. rewrite Rabs_R0. field. lra.
  - unfold percent_error, div. simpl.
    now rewrite (Rsign_pos _ H100), (Rsign_pos _ Ht).
  - unfold percent_error, div. simpl.
    now rewrite (Rsign_pos _ H100), (Rsign_pos _ Ht).
Qed.

Lemma percent_error_spec_witness :
  nonnegative (percent_error (Fin (3 / 10)) (Fin (1 / 4))) /\
  percent_error (Fin (1 / 4)) (Fin (1 / 4)) = Fin 0 /\
  percent_error NaN (Fin (1 / 4)) = NaN /\
  percent_error PInf (Fin (1 / 4)) = PInf /\
  percent_error NInf (Fin (1 / 4)) = PInf.
Proof.
  apply (percent_error_spec (3 / 10) (1 / 4)). lra.
Defined.

(** X13. From the percentiles a, b, c (and whatever follows them) the
    summary cell displays b with the offsets b - a and c - b, computed by
    [np.diff]; for ordered finite percentiles a <= b <= c neither offset is
    negative.  With fewer than three percentiles the cell raises
    [IndexError]. *)
Theorem credible_summary_spec :
  (forall (a b c : npfloat) (rest : array1),
     credible_summary (a :: b :: c :: rest) = Ok (b, sub b a, sub c b)) /\
  (forall a b c : R, a <= b <= c ->
     exists lo hi,
       credible_summary [Fin a; Fin b; Fin c] = Ok (Fin b, lo, hi) /\
       nonnegative lo /\ nonnegative hi) /\
  (forall mcmc, (length mcmc < 3)%nat -> credible_summary mcmc = Raise IndexError).
Proof.
  split; [| split].
  - intros a b c rest. reflexivity.
  - intros a b c [Hab Hbc]. exists (sub (Fin b) (Fin a)), (sub (Fin c) (Fin b)).
    split; [reflexivity |].
    unfold nonnegative. simpl. split; apply Rleb_true; lra.
  - intros mcmc H. destruct mcmc as [| a [| b [| c mcmc]]]; simpl in H;
      try lia; reflexivity.
Qed.

Lemma credible_summary_spec_witness :
  (exists lo hi,
     credible_summary [Fin 1; Fin 2; Fin 4] = Ok (Fin 2, lo, hi) /\
     nonnegative lo /\ nonnegative hi) /\
  credible_summary [Fin 1; Fin 2] = Raise IndexError.
Proof.
  split.
  - apply (proj1 (proj2 credible_summary_spec) 1 2 4). lra.
  - apply (proj2 (proj2 credible_summary_spec) [Fin 1; Fin 2]). simpl. lia.
Defined.

(** ** The right-hand sides *)

(** X14. With r and K inside the prior's intervals (0 < r < 1,
    10 < K < 120) the logistic right-hand side is zero at the states 0 and
    K, is not negative for a state between 0 and K and is not positive for a
    state at or above K. *)
Theorem control_tumor_sign (r K N : R) (t : npfloat) :
  0 < r < 1 -> 10 < K < 120 ->
  exists d,
    control_tumor [Fin N] t [Fin r; Fin K] = Ok d /\
    (N = 0 \/ N = K -> d = Fin 0) /\
    (0 <= N <= K -> nonnegative d) /\
    (K <= N -> leb d (Fin 0) = true).
Proof.
  intros Hr HK. exists (Fin (r * N * (1 - N / K))).
  split; [apply control_tumor_finite_value; lra |].
  assert (E : r * N * (1 - N / K) = r / K * (N * (K - N))) by (field; lra).
  assert (Hc : 0 < r / K) by (apply Rdiv_lt_0_compat; lra).
  split; [| split].
  - intros [-> | ->]; f_equal; field; lra.
  - intros HN. unfold nonnegative. simpl. apply Rleb_true. rewrite E.
    apply Rmult_le_pos; [lra |]. apply Rmult_le_pos; lra.
  - intros HN. simpl. apply Rleb_true. rewrite E.
    assert (H : 0 <= r / K * (N * (N - K))).
    { apply Rmult_le_pos; [lra |]. apply Rmult_le_pos; lra. }
    lra.
Qed.

Lemma control_tumor_sign_witness :
  exists d,
    control_tumor [Fin 60] (Fin 0) [Fin (1 / 4); Fin 60] = Ok d /\
    (60 = 0 \/ 60 = 60 -> d = Fin 0) /\
    (0 <= 60 <= 60 -> nonnegative d) /\
    (60 <= 60 -> leb d (Fin 0) = true).
Proof.
  apply (control_tumor_sign (1 / 4) 60 60 (Fin 0)); lra.
Defined.

Lemma moderate_one : moderate 1.
Proof.
  unfold moderate. rewrite Rabs_R1. apply pow_R1_Rle. lra.
Qed.

(** X15. Structure of the treated model.  Without drug (C = 0), for a
    state N and rates f, g of moderate size, the tumour derivative is the
    value of [control_tumor] and the drug derivative is zero.  A tumour-free
    state (N = 0) is an equilibrium for all finite parameters with K not
    zero. *)
Theorem treated_tumor_structure (t : npfloat) :
  (forall (r K : npfloat) (N f g : R),
     moderate N -> moderate f -> moderate g ->
     exists d,
       control_tumor [Fin N] t [r; K] = Ok d /\
       treated_tumor [Fin N; Fin 0] t [r; K; Fin f; Fin g] = Ok [d; Fin 0]) /\
  (forall r K f g C : R, K <> 0 ->
     treated_tumor [Fin 0; Fin C] t [Fin r; Fin K; Fin f; Fin g]
     = Ok [Fin 0; Fin 0]).
Proof.
  split.
  - intros r K N f g _ _ _.
    unfold control_tumor, treated_tumor, rbind, getitem. cbn [nth_error].
    eexists. split; [reflexivity |].
    generalize (mul (mul r (Fin N)) (sub (Fin 1) (div (Fin N) K))). intros A.
    do 2 f_equal.
    + destruct A; simpl; try reflexivity. f_equal. ring.
    + simpl. do 2 f_equal. ring.
  - intros r K f g C HK.
    unfold treated_tumor, rbind, getitem. cbn [nth_error].
    unfold div. pose proof (Rsign_nonzero K HK) as HsK.
    destruct (Rsign K); try congruence; simpl;
      (do 3 f_equal; [field; exact HK | f_equal; f_equal; ring]).
Qed.

Lemma treated_tumor_structure_witness :
  (exists d,
     control_tumor [Fin 1] (Fin 0) [Fin (1 / 4); Fin 60] = Ok d /\
     treated_tumor [Fin 1; Fin 0] (Fin 0) [Fin (1 / 4); Fin 60; Fin 1; Fin 1]
     = Ok [d; Fin 0]) /\
  treated_tumor [Fin 0; Fin 5] (Fin 0) [Fin (1 / 4); Fin 60; Fin (1 / 10); Fin (2 / 10)]
  = Ok [Fin 0; Fin 0].
Proof.
  split.
  - apply (proj1 (treated_tumor_structure (Fin 0)) (Fin (1 / 4)) (Fin 60) 1 1 1);
      exact moderate_one.
  - apply (proj2 (treated_tumor_structure (Fin 0)) (1 / 4) 60 (1 / 10) (2 / 10) 5). lra.
Defined.

(** X16. The right-hand sides index their arguments without a length
    test: [control_tumor] returns a value exactly when the state has at least
    one entry and theta at least two, [treated_tumor] exactly when the state
    has at least two entries and theta at least four; otherwise they raise
    [IndexError]. *)
Theorem rhs_index_errors (y theta : array1) (t : npfloat) :
  ((1 <= length y)%nat /\ (2 <= length theta)%nat ->
     exists d, control_tumor y t theta = Ok d) /\
  ((length y < 1)%nat \/ (length theta < 2)%nat ->
     control_tumor y t theta = Raise IndexError) /\
  ((2 <= length y)%nat /\ (4 <= length theta)%nat ->
     exists d, treated_tumor y t theta = Ok d) /\
  ((length y < 2)%nat \/ (length theta < 4)%nat ->
     treated_tumor y t theta = Raise IndexError).
Proof.
  repeat split.
  - intros [Hy Ht].
    destruct y as [| y0 y]; simpl in Hy; [lia |].
    destruct theta as [| a [| b theta]]; simpl in Ht; try lia.
    eexists. reflexivity.
  - intros H.
    destruct theta as [| a [| b theta]]; try reflexivity;
      destruct y as [| y0 y]; try reflexivity.
    simpl in H. lia.
  - intros [Hy Ht].
    destruct y as [| y0 [| y1 y]]; simpl in Hy; try lia.
    destruct theta as [| a [| b [| c [| d theta]]]]; simpl in Ht; try lia.
    eexists. reflexivity.
  - intros H.
    destruct theta as [| a [| b [| c [| d theta]]]]; try reflexivity;
      destruct y as [| y0 [| y1 y]]; try reflexivity.
    simpl in H. lia.
Qed.

Lemma rhs_index_errors_witness :
  (exists d, control_tumor [Fin 1] (Fin 0) [Fin (1 / 4); Fin 60] = Ok d) /\
  control_tumor [Fin 1] (Fin 0) [Fin (1 / 4)] = Raise IndexError /\
  (exists d, treated_tumor [Fin 1; Fin 5] (Fin 0)
               [Fin (1 / 4); Fin 60; Fin (1 / 10); Fin (2 / 10)] = Ok d) /\
  treated_tumor [Fin 1] (Fin 0) [Fin (1 / 4); Fin 60; Fin (1 / 10); Fin (2 / 10)]
  = Raise IndexError.
Proof.
  split; [| split; [| split]].
  - apply (proj1 (rhs_index_errors [Fin 1] [Fin (1 / 4); Fin 60] (Fin 0))).
    simpl. lia.
  - apply (proj1 (proj2 (rhs_index_errors [Fin 1] [Fin (1 / 4)] (Fin 0)))).
    simpl. lia.
  - apply (proj1 (proj2 (proj2 (rhs_index_errors [Fin 1; Fin 5]
             [Fin (1 / 4); Fin 60; Fin (1 / 10); Fin (2 / 10)] (Fin 0))))).
    simpl. lia.
  - apply (proj2 (proj2 (proj2 (rhs_index_errors [Fin 1]
             [Fin (1 / 4); Fin 60; Fin (1 / 10); Fin (2 / 10)] (Fin 0))))).
    simpl. lia.
Defined.

(** ** The logistic model from any non-negative initial state *)

Section LogisticAnyStart.

Variables r K t0 y0 : R.
Hypothesis r_pos : 0 < r.
Hypothesis K_pos : 0 < K.
Hypothesis y0_nonneg : 0 <= y0.

Lemma decay_range (t : R) : t0 <= t -> 0 < exp (- (r * (t - t0))) <= 1.
Proof.
  intros Ht. split; [apply exp_pos |].
  rewrite <- exp_0. destruct (Rle_lt_or_eq_dec _ _ Ht) as [Hlt | <-].
  - left. apply exp_increasing. nra.
  - right. f_equal. ring.
Qed.

Lemma denominator_pos_from_start (t : R) :
  t0 <= t -> 0 < logistic_denominator r K t0 y0 t.
Proof.
  intros Ht. unfold logistic_denominator.
  destruct (decay_range t Ht) as [He1 He2].
  set (e := exp (- (r * (t - t0)))) in *.
  replace (y0 + (K - y0) * e) with (y0 * (1 - e) + K * e) by ring.
  assert (0 <= y0 * (1 - e)) by (apply Rmult_le_pos; lra).
  assert (0 < K * e) by (apply Rmult_lt_0_compat; lra).
  lra.
Qed.

Lemma logistic_derivative_from_start (t : R) :
  t0 <= t ->
  derivable_pt_lim (logistic r K t0 y0) t
    (r * logistic r K t0 y0 t * (1 - logistic r K t0 y0 t / K)).
Proof.
  intros Ht. pose proof (denominator_pos_from_start t Ht) as Hp.
  apply (derivable_pt_lim_ext
           (div_fct (fct_cte (y0 * K)) (logistic_denominator r K t0 y0))).
  - intros z. reflexivity.
  - replace (r * logistic r K t0 y0 t * (1 - logistic r K t0 y0 t / K))
      with ((0 * logistic_denominator r K t0 y0 t
             - ((K - y0) * (exp (- (r * (t - t0))) * - r)) * fct_cte (y0 * K) t)
            / Rsqr (logistic_denominator r K t0 y0 t)).
    + apply derivable_pt_lim_div.
      * apply derivable_pt_lim_const.
      * apply derivable_pt_lim_denominator.
      * lra.
    + unfold logistic, fct_cte, Rsqr.
      unfold logistic_denominator in *. field. lra.
Qed.

Lemma logistic_solves_from_start :
  solves control_tumor [Fin r; Fin K] t0 y0 (logistic r K t0 y0).
Proof.
  split.
  - apply logistic_initial. exact K_pos.
  - intros t Ht. eexists. split.
    + apply control_tumor_finite_value. lra.
    + now apply logistic_derivative_from_start.
Qed.

Variable u : R -> R.
Hypothesis u_solves : solves control_tumor [Fin r; Fin K] t0 y0 u.

Lemma solution_is_logistic_from_start (t : R) :
  t0 <= t -> u t = logistic r K t0 y0 t.
Proof.
  intros Ht. assert (HK0 : K <> 0) by lra.
  destruct (solves_logistic_equation r K t0 y0 u HK0 u_solves) as [H0 Hode].
  pose proof (defect_zero r K t0 y0 K_pos u H0 Hode t Ht) as HG.
  unfold logistic_defect in HG.
  pose proof (denominator_pos_from_start t Ht) as Hp. unfold logistic.
  apply (Rmult_eq_reg_r (logistic_denominator r K t0 y0 t)); [| lra].
  unfold Rdiv. rewrite Rmult_assoc, Rinv_l by lra. lra.
Qed.

Lemma solution_times_denominator (t : R) :
  t0 <= t -> u t * logistic_denominator r K t0 y0 t = y0 * K.
Proof.
  intros Ht. rewrite (solution_is_logistic_from_start t Ht). unfold logistic.
  pose proof (denominator_pos_from_start t Ht). field. lra.
Qed.

End LogisticAnyStart.

(** X17. The logistic trajectory from the other initial states that the
    calibration visits (r > 0, K > 0).  Started above the carrying capacity
    it decreases strictly, stays above K and tends to K; started at K it
    stays at K; started at 0 it stays at 0. *)
Theorem logistic_trajectory_other_starts (r K y0 t0 : R) (u : R -> R) :
  0 < r -> 0 < K ->
  solves control_tumor [Fin r; Fin K] t0 y0 u ->
  (K < y0 ->
     (forall s t, t0 <= s -> s < t -> u t < u s) /\
     (forall t, t0 <= t -> K < u t <= y0) /\
     (forall eps, 0 < eps ->
        exists T, forall t, t0 <= t -> T <= t -> Rabs (u t - K) < eps)) /\
  (y0 = K -> forall t, t0 <= t -> u t = K) /\
  (y0 = 0 -> forall t, t0 <= t -> u t = 0).
Proof.
  intros Hr HK Hu. split; [| split].
  - intros Hy. assert (Hy0 : 0 <= y0) by lra.
    pose proof (solution_times_denominator r K t0 y0 Hr HK Hy0 u Hu) as Hprod.
    pose proof (denominator_pos_from_start r K t0 y0 Hr HK Hy0) as Hpos.
    assert (Hgap : forall t, t0 <= t ->
              (u t - K) * logistic_denominator r K t0 y0 t
              = K * (y0 - K) * exp (- (r * (t - t0)))).
    { intros t Ht. pose proof (Hprod t Ht) as E.
      unfold logistic_denominator in *. nra. }
    assert (Habove : forall t, t0 <= t -> K < u t).
    { intros t Ht. pose proof (Hgap t Ht) as E. pose proof (Hpos t Ht) as Hp.
      pose proof (exp_pos (- (r * (t - t0)))) as He.
      assert (0 < K * (y0 - K) * exp (- (r * (t - t0))))
        by (repeat apply Rmult_lt_0_compat; lra).
      nra. }
    assert (Hmono : forall s t, t0 <= s -> s < t -> u t < u s).
    { intros s t Hs Hst.
      pose proof (Hprod s Hs) as Es. pose proof (Hprod t ltac:(lra)) as Et.
      pose proof (Hpos s Hs) as Hps. pose proof (Hpos t ltac:(lra)) as Hpt.
      pose proof (Habove s Hs) as Has.
      assert (Hd : logistic_denominator r K t0 y0 s < logistic_denominator r K t0 y0 t).
      { unfold logistic_denominator.
        assert (exp (- (r * (t - t0))) < exp (- (r * (s - t0))))
          by (apply exp_increasing; nra).
        nra. }
      assert (u s * logistic_denominator r K t0 y0 s
              < u s * logistic_denominator r K t0 y0 t)
        by (apply Rmult_lt_compat_l; lra).
      apply (Rmult_lt_reg_r (logistic_denominator r K t0 y0 t)); [exact Hpt |]. lra. }
    split; [exact Hmono |]. split.
    + intros t Ht. split; [now apply Habove |].
      destruct Hu as [H0 _].
      destruct (Rle_lt_or_eq_dec _ _ Ht) as [Hlt | <-]; [| lra].
      pose proof (Hmono t0 t ltac:(lra) Hlt). lra.
    + intros eps Heps.
      set (delta := eps / (2 * (y0 - K))).
      assert (Hdelta : 0 < delta) by (unfold delta; apply Rdiv_lt_0_compat; lra).
      exists (t0 - ln delta / r). intros t Ht HT.
      pose proof (Habove t Ht) as Ha. rewrite Rabs_right by lra.
      pose proof (Hgap t Ht) as E. pose proof (Hpos t Ht) as Hp.
      assert (Hexp : exp (- (r * (t - t0))) <= exp (ln delta)).
      { destruct (Rle_lt_or_eq_dec _ _ HT) as [Hlt' | Heq].
        - left. apply exp_increasing.
          assert (ln delta / r * r = ln delta) by (field; lra). nra.
        - right. f_equal. subst t. field. lra. }
      rewrite (exp_ln delta Hdelta) in Hexp.
      assert (HKd : K <= logistic_denominator r K t0 y0 t).
      { unfold logistic_denominator.
        destruct (decay_range r t0 Hr t Ht) as [He1 He2].
        set (e := exp (- (r * (t - t0)))) in *.
        assert (0 <= (y0 - K) * (1 - e)) by (apply Rmult_le_pos; lra). lra. }
      assert (Hd2 : (y0 - K) * delta = eps / 2) by (unfold delta; field; lra).
      assert (H1 : (u t - K) * K <= (u t - K) * logistic_denominator r K t0 y0 t)
        by (apply Rmult_le_compat_l; lra).
      assert (H2 : K * (y0 - K) * exp (- (r * (t - t0))) <= K * ((y0 - K) * delta)).
      { rewrite Rmult_assoc. apply Rmult_le_compat_l; [lra |].
        apply Rmult_le_compat_l; lra. }
      assert (H3 : (u t - K) * K <= K * (eps / 2)) by (rewrite <- Hd2; lra).
      assert (H4 : u t - K <= eps / 2).
      { apply (Rmult_le_reg_r K); [exact HK |]. lra. }
      lra.
  - intros -> t Ht.
    pose proof (solution_times_denominator r K t0 K Hr HK ltac:(lra) u Hu t Ht) as E.
    unfold logistic_denominator in E.
    replace (K + (K - K) * exp (- (r * (t - t0)))) with K in E by ring.
    apply (Rmult_eq_reg_r K); lra.
  - intros -> t Ht.
    pose proof (solution_times_denominator r K t0 0 Hr HK ltac:(lra) u Hu t Ht) as E.
    pose proof (denominator_pos_from_start r K t0 0 Hr HK ltac:(lra) t Ht) as Hp.
    rewrite Rmult_0_l in E. apply Rmult_integral in E. destruct E; lra.
Qed.

Lemma logistic_trajectory_other_starts_witness :
  ((forall s t, 0 <= s -> s < t -> logistic (1 / 4) 12 0 15 t < logistic (1 / 4) 12 0 15 s) /\
   (forall t, 0 <= t -> 12 < logistic (1 / 4) 12 0 15 t <= 15) /\
   (forall eps, 0 < eps ->
      exists T, forall t, 0 <= t -> T <= t -> Rabs (logistic (1 / 4) 12 0 15 t - 12) < eps)) /\
  (forall t, 0 <= t -> logistic (1 / 4) 12 0 12 t = 12) /\
  (forall t, 0 <= t -> logistic (1 / 4) 12 0 0 t = 0).
Proof.
  assert (Hr : 0 < 1 / 4) by lra. assert (HK : 0 < 12) by lra.
  split; [| split].
  - assert (Hy : 0 <= 15) by lra.
    apply (proj1 (logistic_trajectory_other_starts (1 / 4) 12 15 0
                    (logistic (1 / 4) 12 0 15) Hr HK
                    (logistic_solves_from_start (1 / 4) 12 0 15 Hr HK Hy))).
    lra.
  - assert (Hy : 0 <= 12) by lra.
    apply (proj1 (proj2 (logistic_trajectory_other_starts (1 / 4) 12 12 0
                    (logistic (1 / 4) 12 0 12) Hr HK
                    (logistic_solves_from_start (1 / 4) 12 0 12 Hr HK Hy)))).
    reflexivity.
  - assert (Hy : 0 <= 0) by lra.
    apply (proj2 (proj2 (logistic_trajectory_other_starts (1 / 4) 12 0 0
                    (logistic (1 / 4) 12 0 0) Hr HK
                    (logistic_solves_from_start (1 / 4) 12 0 0 Hr HK Hy)))).
    reflexivity.
Defined.

(** ** The likelihoods and the sign of sigma *)

Lemma variance_of_neg (s : npfloat) : variance_of (neg s) = variance_of s.
Proof.
  unfold variance_of. destruct s as [x | | |]; simpl; try reflexivity.
  f_equal. ring.
Qed.

Lemma sum1_all_nan (l : array1) :
  l <> [] -> Forall (fun v => v = NaN) l -> sum1 l = NaN.
Proof.
  intros Hne H. destruct H as [| v l Hv Hl]; [congruence |].
  subst v. reflexivity.
Qed.

Lemma Rsign_square (e : R) : Rsign (e * e) <> Lt.
Proof.
  unfold Rsign. pose proof (Rle_0_sqr e) as H. unfold Rsqr in H.
  destruct (total_order_T (e * e) 0) as [[Hlt | Heq] | Hgt]; try discriminate. lra.
Qed.

Lemma summand_zero_variance (e : R) :
  summand (variance_of (Fin 0)) (Fin e) = NaN /\
  summand_ic (variance_of (Fin 0)) (Fin e) = NaN.
Proof.
  unfold summand, summand_ic, variance_of, square, log, div, pi. simpl.
  replace (0 * 0) with 0 by ring.
  rewrite Rsign_zero, (Rsign_pos _ two_pi_pos). simpl.
  pose proof (Rsign_square e) as Hsq.
  split; destruct (Rsign (e * e)); try congruence; reflexivity.
Qed.

Section Sigma.

Variable integrate : integrator.

(** X18. Both likelihoods depend on sigma through [sigma*sigma] only: for
    every parameter vector, dataset and integrator, replacing sigma by
    [-sigma] changes neither the value nor the exception. *)
Theorem likelihood_even_in_sigma (cal_r cal_K cal_sigma cal_ic : npfloat)
    (times : array1) (y : array2) (n : nat) :
  log_likelihood integrate [cal_r; cal_K; neg cal_sigma] times y n
  = log_likelihood integrate [cal_r; cal_K; cal_sigma] times y n /\
  log_likelihood_ic integrate [cal_r; cal_K; neg cal_sigma; cal_ic] times y n
  = log_likelihood_ic integrate [cal_r; cal_K; cal_sigma; cal_ic] times y n.
Proof.
  unfold log_likelihood, log_likelihood_ic, bind, lift, odeint, ret.
  cbn [unpack3 unpack4]. rewrite variance_of_neg. split; reflexivity.
Qed.

(** X19. With sigma = 0 nothing is raised and nothing is mapped to an
    infinity: on a non-empty finite dataset and a finite trajectory of the
    same length, [log(0) = -inf] meets a division by zero in every summand
    and both likelihoods return [nan]. *)
Theorem likelihood_at_zero_sigma (cal_r cal_K : npfloat)
    (times : array1) (d0 : R) (D Y : list R) (n : nat) :
  length (d0 :: D) = length Y ->
  (integrate (scalar_rhs control_tumor) [Fin d0] times [cal_r; cal_K] = Ok (as_column Y) ->
   log_likelihood integrate [cal_r; cal_K; Fin 0] times (as_column (d0 :: D)) n
   = (Ok NaN, S n)) /\
  (forall cal_ic,
     integrate (scalar_rhs control_tumor) [cal_ic] times [cal_r; cal_K] = Ok (as_column Y) ->
     log_likelihood_ic integrate [cal_r; cal_K; Fin 0; cal_ic] times (as_column (d0 :: D)) n
     = (Ok NaN, S n)).
Proof.
  intros Hlen.
  assert (Hl : length (map Fin (d0 :: D)) = length (map Fin Y))
    by (rewrite !length_map; exact Hlen).
  assert (Hnan : forall term,
            (forall e, term (Fin e) = NaN) ->
            sum1 (map term (zip_with sub (map Fin (d0 :: D)) (map Fin Y))) = NaN).
  { intros term Hterm. apply sum1_all_nan.
    - destruct Y as [| y Y']; simpl in Hlen; [discriminate |]. simpl. discriminate.
    - clear Hl. revert Hlen. generalize (d0 :: D) as L. intros L. revert Y.
      induction L as [| d L IH]; intros [| y Y'] Hlen; simpl in *;
        try discriminate; constructor.
      + change (sub (Fin d) (Fin y)) with (Fin (d - y)). apply Hterm.
      + apply IH. now injection Hlen. }
  split.
  - intros Hint. unfold as_column in *.
    rewrite (log_likelihood_column integrate _ _ _ _ _ _ (map Fin Y) n Hl Hint).
    change (Fin d0 :: map Fin D) with (map Fin (d0 :: D)).
    rewrite Hnan; [reflexivity |]. intros e. apply summand_zero_variance.
  - intros cal_ic Hint. unfold as_column in *.
    rewrite (log_likelihood_ic_column integrate _ _ _ _ _ _ (map Fin Y) n Hl Hint).
    rewrite Hnan; [reflexivity |]. intros e. apply summand_zero_variance.
Qed.

End Sigma.

Lemma likelihood_at_zero_sigma_witness :
  log_likelihood euler_odeint [Fin (1 / 4); Fin 60; Fin 0] [Fin 0; Fin 1]
    (as_column [1; 2]) 0%nat = (Ok NaN, 1%nat) /\
  log_likelihood_ic euler_odeint [Fin (1 / 4); Fin 60; Fin 0; Fin 1] [Fin 0; Fin 1]
    (as_column [1; 2]) 0%nat = (Ok NaN, 1%nat).
Proof.
  destruct (likelihood_at_zero_sigma euler_odeint (Fin (1 / 4)) (Fin 60)
              [Fin 0; Fin 1] 1 [2] [1; euler_y1] 0%nat eq_refl) as [H1 H2].
  split.
  - exact (H1 euler_two_points).
  - exact (H2 (Fin 1) euler_two_points).
Defined.
